(** * Request policy scheduler: ordering and budgeted admission

    Shallow embedding of [python/sglang/srt/managers/policy_scheduler.py]:
    the [PolicyScheduler] that orders the waiting queue and the
    [PrefillAdder] that admits requests under token budgets while talking
    to the prefix cache through its lock interface.

    Python integers are unbounded, so every counter is a [Z].  Objects the
    source mutates in place ([Req], [PrefillAdder]) are passed in and handed
    back: a method [m(self, req)] becomes a function that returns the new
    [req] and the new [self] next to its result.  The lists of the adder
    hold the value a request has at the moment it is appended. *)

From stdpp Require Import gmap strings list fin_maps sorting.
From Stdlib Require Import ZArith Lia.

Local Open Scope Z_scope.

(** ** Python values *)

Inductive PyExn := TypeError | ValueError.

Inductive PyResult (A : Type) :=
| Return (a : A)
| Raises (e : PyExn).
Arguments Return {A} a.
Arguments Raises {A} e.

(** [len(l)] *)
Definition len {A} (l : list A) : Z := Z.of_nat (length l).

(** [l[:stop]]: a negative [stop] counts from the end, and both ends are
    clamped to the list. *)
Definition slice_to {A} (l : list A) (stop : Z) : list A :=
  let stop' := if stop <? 0 then Z.max 0 (stop + len l) else Z.min stop (len l) in
  take (Z.to_nat stop') l.

(** ** Data model *)

(** A [TreeNode] is referenced by requests and used as a dictionary key
    through its object identity, which [node_id] stands for.  [children]
    lists [cur_node.children.values()] in dictionary order; the keys of
    that dictionary are not read by the scheduler. *)
#[local] Unset Elimination Schemes.
Inductive TreeNode := mkTreeNode (node_id : nat) (children : list TreeNode).
#[local] Set Elimination Schemes.

Definition node_id (n : TreeNode) : nat := let 'mkTreeNode i _ := n in i.
Definition children (n : TreeNode) : list TreeNode := let 'mkTreeNode _ cs := n in cs.

Record SamplingParams := mkSamplingParams { max_new_tokens : Z }.

(** The fields of [Req] the scheduler reads or writes.  Of
    [normalized_prompt_logprob] only [is None] is tested. *)
Record Req := mkReq {
  rid : string;
  origin_input_ids : list Z;
  output_ids : list Z;
  fill_ids : list Z;
  prefix_indices : list Z;
  last_node : nat;
  extend_input_len : Z;
  sampling_params : SamplingParams;
  return_logprob : bool;
  normalized_prompt_logprob : option Z;
}.

Definition set_fill_ids (v : list Z) (r : Req) : Req :=
  mkReq (rid r) (origin_input_ids r) (output_ids r) v (prefix_indices r)
        (last_node r) (extend_input_len r) (sampling_params r)
        (return_logprob r) (normalized_prompt_logprob r).

Definition set_prefix_indices (v : list Z) (r : Req) : Req :=
  mkReq (rid r) (origin_input_ids r) (output_ids r) (fill_ids r) v
        (last_node r) (extend_input_len r) (sampling_params r)
        (return_logprob r) (normalized_prompt_logprob r).

Definition set_last_node (v : nat) (r : Req) : Req :=
  mkReq (rid r) (origin_input_ids r) (output_ids r) (fill_ids r) (prefix_indices r)
        v (extend_input_len r) (sampling_params r)
        (return_logprob r) (normalized_prompt_logprob r).

Definition set_extend_input_len (v : Z) (r : Req) : Req :=
  mkReq (rid r) (origin_input_ids r) (output_ids r) (fill_ids r) (prefix_indices r)
        (last_node r) v (sampling_params r)
        (return_logprob r) (normalized_prompt_logprob r).

(** ** The prefix cache, seen from the scheduler

    [BasePrefixCache] is the interface the scheduler consumes.  A cache is
    a state [C]; every operation returns its result and the next state. *)
Class BasePrefixCache (C : Type) := {
  disable : C → bool;
  root_node : C → TreeNode;
  match_prefix : string → list Z → C → (list Z * nat) * C;
  match_prefix_lock : string → list Z → C → (list Z * nat * Z) * C;
  inc_lock_ref : nat → C → Z * C;
  dec_lock_ref : nat → C → Z * C;
}.

(** The lock operations the adder performs are recorded, with the node
    they act on and the budget delta they returned. *)
Inductive CacheCall :=
| CallMatchPrefixLock (node : nat) (delta : Z)
| CallIncLockRef (node : nat) (delta : Z)
| CallDecLockRef (node : nat) (delta : Z).

Record TreeCache (C : Type) := mkTreeCache {
  tc_state : C;
  tc_calls : list CacheCall;
}.
Arguments mkTreeCache {C} _ _.
Arguments tc_state {C} _.
Arguments tc_calls {C} _.

Section Cache_calls.
Context {C : Type} `{BasePrefixCache C}.

Definition tc_match_prefix_lock (rid : string) (key : list Z) (tc : TreeCache C)
  : (list Z * nat * Z) * TreeCache C :=
  let '((indices, node, delta), c) := match_prefix_lock rid key (tc_state tc) in
  ((indices, node, delta),
   mkTreeCache c (tc_calls tc ++ [CallMatchPrefixLock node delta])).

Definition tc_inc_lock_ref (node : nat) (tc : TreeCache C) : Z * TreeCache C :=
  let '(delta, c) := inc_lock_ref node (tc_state tc) in
  (delta, mkTreeCache c (tc_calls tc ++ [CallIncLockRef node delta])).

Definition tc_dec_lock_ref (node : nat) (tc : TreeCache C) : Z * TreeCache C :=
  let '(delta, c) := dec_lock_ref node (tc_state tc) in
  (delta, mkTreeCache c (tc_calls tc ++ [CallDecLockRef node delta])).
End Cache_calls.

(** ** Python dictionaries and sorting *)

(** [d[k]] on a [defaultdict(int)] and on a [defaultdict(list)]: a missing
    key reads as the default.  (Python also stores the default under the
    key; no later read can tell the difference.) *)
Definition wget (d : gmap nat Z) (k : nat) : Z := default 0 (d !! k).
Definition rget (d : gmap nat (list Req)) (k : nat) : list Req := default [] (d !! k).

(** [l.sort(key=key)]: ascending in [key], stable. *)
Fixpoint insert_by_key {A : Type} (key : A → Z) (x : A) (l : list A) : list A :=
  match l with
  | [] => [x]
  | y :: l' => if key x <=? key y then x :: y :: l' else y :: insert_by_key key x l'
  end.

Definition sort_by_key {A : Type} (key : A → Z) (l : list A) : list A :=
  foldr (insert_by_key key) [] l.

(** ** PolicyScheduler *)

Record PolicyScheduler (C : Type) := mkPolicyScheduler {
  policy : string;
  ps_tree_cache : C;
}.
Arguments mkPolicyScheduler {C} _ _.
Arguments policy {C} _.
Arguments ps_tree_cache {C} _.

(** [calc_weight]: after each child has been weighed, its weight is added
    to the weight of [cur_node]. *)
Fixpoint calc_weight (cur_node : TreeNode) (node_to_weight : gmap nat Z)
  : gmap nat Z :=
  match cur_node with
  | mkTreeNode cur cs =>
    (fix loop (cs : list TreeNode) (node_to_weight : gmap nat Z) : gmap nat Z :=
       match cs with
       | [] => node_to_weight
       | child :: cs' =>
         let node_to_weight := calc_weight child node_to_weight in
         loop cs'
           (<[cur := wget node_to_weight cur + wget node_to_weight (node_id child)]>
              node_to_weight)
       end) cs node_to_weight
  end.

(** [get_dfs_priority]: the children are sorted by the negated priority,
    walked in that order, and then the requests of [cur_node] are
    appended to [q].  Each child is paired with its own walk before the
    sort, so that the recursion stays on the children of [cur_node]. *)
Fixpoint get_dfs_priority (cur_node : TreeNode) (node_to_priority : gmap nat Z)
    (last_node_to_reqs : gmap nat (list Req)) (q : list Req) : list Req :=
  match cur_node with
  | mkTreeNode cur cs =>
    let childs :=
      map (λ child,
             (child, get_dfs_priority child node_to_priority last_node_to_reqs)) cs in
    let childs :=
      sort_by_key (λ x, - wget node_to_priority (node_id (fst x))) childs in
    let q := fold_left (λ q x, snd x q) childs q in
    q ++ rget last_node_to_reqs cur
  end.

Section Orderer.
Context {C : Type} `{BasePrefixCache C}.

(** [Req.adjust_max_prefix_ids] lives with [Req] in [schedule_batch];
    the scheduler only passes its result on as the key to match. *)
Variable adjust_max_prefix_ids : Req → list Z.

(** The permutation [random.shuffle] draws. *)
Variable shuffle : list Req → list Req.

Definition PolicyScheduler_init (policy : string) (tree_cache : C)
  : PolicyScheduler C :=
  let policy :=
    if disable tree_cache
       && (bool_decide (policy = "lpm") || bool_decide (policy = "dfs-weight"))
    then "fcfs" else policy in
  mkPolicyScheduler policy tree_cache.

(** The first loop of [calc_priority]: every request gets the prefix
    and the node the cache matches for it. *)
Fixpoint match_all (waiting_queue : list Req) (c : C) : list Req * C :=
  match waiting_queue with
  | [] => ([], c)
  | r :: rest =>
    let '((indices, node), c) := match_prefix (rid r) (adjust_max_prefix_ids r) c in
    let r := set_last_node node (set_prefix_indices indices r) in
    let '(rest, c) := match_all rest c in
    (r :: rest, c)
  end.

(** The tables of the dfs-weight branch. *)
Definition dfs_last_node_to_reqs (waiting_queue : list Req) : gmap nat (list Req) :=
  fold_left
    (λ d req, <[last_node req := rget d (last_node req) ++ [req]]> d)
    waiting_queue ∅.

Definition dfs_node_to_weight (root : TreeNode) (waiting_queue : list Req)
  : gmap nat Z :=
  let last_node_to_reqs := dfs_last_node_to_reqs waiting_queue in
  let node_to_weight := (λ reqs : list Req, len reqs) <$> last_node_to_reqs in
  calc_weight root node_to_weight.

Definition dfs_weight_order (root : TreeNode) (waiting_queue : list Req) : list Req :=
  get_dfs_priority root
    (dfs_node_to_weight root waiting_queue)
    (dfs_last_node_to_reqs waiting_queue)
    [].

(** [calc_priority] sorts [waiting_queue] in place; here it returns the
    queue and the scheduler with the cache the matching left behind. *)
Definition calc_priority (self : PolicyScheduler C) (waiting_queue : list Req)
  : PyResult unit * list Req * PolicyScheduler C :=
  let '(waiting_queue, c) :=
    if bool_decide (policy self = "lpm") || bool_decide (policy self = "dfs-weight")
    then match_all waiting_queue (ps_tree_cache self)
    else (waiting_queue, ps_tree_cache self) in
  let self := mkPolicyScheduler (policy self) c in
  if bool_decide (policy self = "lpm") then
    (Return (), sort_by_key (λ x, - len (prefix_indices x)) waiting_queue, self)
  else if bool_decide (policy self = "fcfs") then
    (Return (), waiting_queue, self)
  else if bool_decide (policy self = "lof") then
    (Return (),
     sort_by_key (λ x, - max_new_tokens (sampling_params x)) waiting_queue, self)
  else if bool_decide (policy self = "random") then
    (Return (), shuffle waiting_queue, self)
  else if bool_decide (policy self = "dfs-weight") then
    (Return (), dfs_weight_order (root_node c) waiting_queue, self)
  else
    (Raises ValueError, waiting_queue, self).
End Orderer.

(** ** The tree below a node *)

(** The identities of the nodes of a tree, and the nodes themselves, the
    root first.  In a tree of Python objects no node occurs twice, which
    is [NoDup (node_ids root)] here. *)
Fixpoint node_ids (n : TreeNode) : list nat :=
  match n with
  | mkTreeNode i cs => i :: flat_map node_ids cs
  end.

Fixpoint nodes (n : TreeNode) : list TreeNode :=
  match n with
  | mkTreeNode i cs => mkTreeNode i cs :: flat_map nodes cs
  end.

Definition sum_Z (l : list Z) : Z := foldr Z.add 0 l.

(** The weight the dfs-weight policy is meant to give a node: the weight
    [direct] of the node itself plus the weights of its child subtrees. *)
Fixpoint aggregate_weight (direct : nat → Z) (n : TreeNode) : Z :=
  match n with
  | mkTreeNode i cs =>
    direct i
    + (fix sum (cs : list TreeNode) : Z :=
         match cs with
         | [] => 0
         | c :: cs' => aggregate_weight direct c + sum cs'
         end) cs
  end.

(** The requests of a queue whose [last_node] is node [i], in queue order. *)
Fixpoint matched_at (q : list Req) (i : nat) : list Req :=
  match q with
  | [] => []
  | r :: q' => if decide (last_node r = i) then r :: matched_at q' i else matched_at q' i
  end.

(** [get_dfs_priority] with the tables first, and the queue a walk from
    [n] puts into an empty [q]. *)
Definition get_dfs_priority_from (node_to_priority : gmap nat Z)
    (last_node_to_reqs : gmap nat (list Req)) (n : TreeNode) (q : list Req) : list Req :=
  get_dfs_priority n node_to_priority last_node_to_reqs q.

Definition walk_from (node_to_priority : gmap nat Z)
    (last_node_to_reqs : gmap nat (list Req)) (n : TreeNode) : list Req :=
  get_dfs_priority_from node_to_priority last_node_to_reqs n [].

(** The children loop of [calc_weight] on its own. *)
Fixpoint calc_weight_children (cur : nat) (cs : list TreeNode)
    (node_to_weight : gmap nat Z) : gmap nat Z :=
  match cs with
  | [] => node_to_weight
  | child :: cs' =>
    let node_to_weight := calc_weight child node_to_weight in
    calc_weight_children cur cs'
      (<[cur := wget node_to_weight cur + wget node_to_weight (node_id child)]>
         node_to_weight)
  end.

(** ** PrefillAdder *)

Record PrefillAdder (C : Type) := mkPrefillAdder {
  tree_cache : TreeCache C;
  rem_total_tokens : Z;
  rem_input_tokens : Z;
  rem_chunk_tokens : option Z;
  can_run_list : list Req;
  new_inflight_req : option Req;
  log_hit_tokens : Z;
  log_input_tokens : Z;
}.
Arguments mkPrefillAdder {C} _ _ _ _ _ _ _ _.
Arguments tree_cache {C} _.
Arguments rem_total_tokens {C} _.
Arguments rem_input_tokens {C} _.
Arguments rem_chunk_tokens {C} _.
Arguments can_run_list {C} _.
Arguments new_inflight_req {C} _.
Arguments log_hit_tokens {C} _.
Arguments log_input_tokens {C} _.

Section Adder_setters.
Context {C : Type}.
Implicit Type self : PrefillAdder C.

Definition set_tree_cache (v : TreeCache C) self : PrefillAdder C :=
  mkPrefillAdder v (rem_total_tokens self) (rem_input_tokens self)
    (rem_chunk_tokens self) (can_run_list self) (new_inflight_req self)
    (log_hit_tokens self) (log_input_tokens self).

Definition set_rem_total_tokens (v : Z) self : PrefillAdder C :=
  mkPrefillAdder (tree_cache self) v (rem_input_tokens self)
    (rem_chunk_tokens self) (can_run_list self) (new_inflight_req self)
    (log_hit_tokens self) (log_input_tokens self).

Definition set_rem_input_tokens (v : Z) self : PrefillAdder C :=
  mkPrefillAdder (tree_cache self) (rem_total_tokens self) v
    (rem_chunk_tokens self) (can_run_list self) (new_inflight_req self)
    (log_hit_tokens self) (log_input_tokens self).

Definition set_rem_chunk_tokens (v : option Z) self : PrefillAdder C :=
  mkPrefillAdder (tree_cache self) (rem_total_tokens self) (rem_input_tokens self)
    v (can_run_list self) (new_inflight_req self)
    (log_hit_tokens self) (log_input_tokens self).

Definition set_can_run_list (v : list Req) self : PrefillAdder C :=
  mkPrefillAdder (tree_cache self) (rem_total_tokens self) (rem_input_tokens self)
    (rem_chunk_tokens self) v (new_inflight_req self)
    (log_hit_tokens self) (log_input_tokens self).

Definition set_new_inflight_req (v : option Req) self : PrefillAdder C :=
  mkPrefillAdder (tree_cache self) (rem_total_tokens self) (rem_input_tokens self)
    (rem_chunk_tokens self) (can_run_list self) v
    (log_hit_tokens self) (log_input_tokens self).

Definition set_log_hit_tokens (v : Z) self : PrefillAdder C :=
  mkPrefillAdder (tree_cache self) (rem_total_tokens self) (rem_input_tokens self)
    (rem_chunk_tokens self) (can_run_list self) (new_inflight_req self)
    v (log_input_tokens self).

Definition set_log_input_tokens (v : Z) self : PrefillAdder C :=
  mkPrefillAdder (tree_cache self) (rem_total_tokens self) (rem_input_tokens self)
    (rem_chunk_tokens self) (can_run_list self) (new_inflight_req self)
    (log_hit_tokens self) v.
End Adder_setters.

(** The [return] statement through which [add_one_req] leaves, named by
    its source line; [Return245] is the final [return True]. *)
Inductive ReturnSite := Return214 | Return217 | Return236 | Return245.

Definition site_value (s : ReturnSite) : bool :=
  match s with
  | Return245 => true
  | Return214 | Return217 | Return236 => false
  end.

Inductive AdderCall :=
| AddOneReq (req : Req)
| AddInflightReq (req : Req).

Section Adder.
Context {C : Type} `{BasePrefixCache C}.

(** [CLIP_MAX_NEW_TOKENS] is read from the environment when the module
    is loaded (4096 by default). *)
Variable CLIP_MAX_NEW_TOKENS : Z.

(** [Req.adjust_max_prefix_ids] lives with [Req] in [schedule_batch];
    the scheduler only passes its result on as the key to match. *)
Variable adjust_max_prefix_ids : Req → list Z.

Implicit Type self : PrefillAdder C.

Definition PrefillAdder_init (tree_cache : TreeCache C)
    (rem_total_tokens rem_input_tokens : Z) (rem_chunk_tokens : option Z)
    (mixed_with_decode_tokens : Z) : PrefillAdder C :=
  mkPrefillAdder tree_cache
    (rem_total_tokens - mixed_with_decode_tokens)
    (rem_input_tokens - mixed_with_decode_tokens)
    (match rem_chunk_tokens with
     | Some c => Some (c - mixed_with_decode_tokens)
     | None => None
     end)
    [] None 0 0.

Definition no_remaining_tokens self : bool :=
  (rem_total_tokens self <=? 0)
  || (rem_input_tokens self <=? 0)
  || match rem_chunk_tokens self with
     | Some c => c <=? 0
     | None => false
     end.

Definition _prefill_one_req (prefix_len extend_input_len max_new_tokens : Z) self
  : PrefillAdder C :=
  let self := set_rem_total_tokens
                (rem_total_tokens self - (extend_input_len + max_new_tokens)) self in
  let self := set_rem_input_tokens (rem_input_tokens self - extend_input_len) self in
  let self := match rem_chunk_tokens self with
              | Some c => set_rem_chunk_tokens (Some (c - extend_input_len)) self
              | None => self
              end in
  let self := set_log_hit_tokens (log_hit_tokens self + prefix_len) self in
  set_log_input_tokens (log_input_tokens self + extend_input_len) self.

(** [remove_running_tokens] multiplies by the floating-point
    [new_token_ratio] and is not part of this embedding; the budgets are
    the integers the constructor and the methods below compute. *)

(** Comparing an [int] with [None] raises [TypeError]; this is the first
    thing [add_inflight_req] does when no chunk budget is set. *)
Definition add_inflight_req (req : Req) self
  : PyResult (option Req) * Req * PrefillAdder C :=
  match rem_chunk_tokens self with
  | None => (Raises TypeError, req, self)
  | Some chunk =>
    let truncated := chunk <? extend_input_len req in
    let req := set_extend_input_len (Z.min (extend_input_len req) chunk) req in
    let req := set_fill_ids
                 (slice_to (fill_ids req)
                    (len (prefix_indices req) + extend_input_len req)) req in
    let self := set_can_run_list (can_run_list self ++ [req]) self in
    let self := _prefill_one_req
                  (len (prefix_indices req))
                  (extend_input_len req)
                  (if negb truncated
                   then Z.min (max_new_tokens (sampling_params req)) CLIP_MAX_NEW_TOKENS
                   else 0)
                  self in
    (Return (if truncated then Some req else None), req, self)
  end.



(** [_lock_req]: the part before [yield] matches the prefix again and
    locks the last node; the [finally] part unlocks it. *)
Definition _lock_req_enter (req : Req) self : Req * PrefillAdder C :=
  let req := set_fill_ids (origin_input_ids req ++ output_ids req) req in
  let '((indices, node, delta), tc) :=
    tc_match_prefix_lock (rid req) (adjust_max_prefix_ids req) (tree_cache self) in
  let self := set_tree_cache tc self in
  let req := set_last_node node (set_prefix_indices indices req) in
  let req := set_extend_input_len
               (len (fill_ids req) - len (prefix_indices req)) req in
  (req, set_rem_total_tokens (rem_total_tokens self + delta) self).

Definition _lock_req_exit (req : Req) self : PrefillAdder C :=
  let '(delta, tc) := tc_dec_lock_ref (last_node req) (tree_cache self) in
  let self := set_tree_cache tc self in
  set_rem_total_tokens (rem_total_tokens self + delta) self.

(** [with self._lock_req(req): body].  The body of [add_one_req] leaves
    through a [return] on every path, and the [finally] part runs on
    each of them. *)
Definition _lock_req {A : Type} (req : Req)
    (body : Req → PrefillAdder C → A * Req * PrefillAdder C) self
  : A * Req * PrefillAdder C :=
  let '(req, self) := _lock_req_enter req self in
  let '(a, req, self) := body req self in
  (a, req, _lock_req_exit req self).

(** The body of the [with] block of [add_one_req]; the delta returned by
    [inc_lock_ref] is dropped, as in the source. *)
Definition add_one_req_body (req : Req) self : ReturnSite * Req * PrefillAdder C :=
  let total_tokens :=
    extend_input_len req
    + Z.min (max_new_tokens (sampling_params req)) CLIP_MAX_NEW_TOKENS in
  let input_tokens := extend_input_len req in
  let prefix_len := len (prefix_indices req) in
  if rem_total_tokens self <=? total_tokens then (Return214, req, self)
  else if (rem_input_tokens self <? input_tokens)
          && negb (len (can_run_list self) =? 0)
  then (Return217, req, self)
  else
    let non_chunked :=
      let self := set_can_run_list (can_run_list self ++ [req]) self in
      let '(_, tc) := tc_inc_lock_ref (last_node req) (tree_cache self) in
      let self := set_tree_cache tc self in
      let self := _prefill_one_req prefix_len input_tokens
                    (Z.min (max_new_tokens (sampling_params req)) CLIP_MAX_NEW_TOKENS)
                    self in
      (Return245, req, self) in
    match rem_chunk_tokens self with
    | None => non_chunked
    | Some chunk =>
      if (input_tokens <=? chunk)
         || (return_logprob req
             && match normalized_prompt_logprob req with
                | None => true
                | Some _ => false
                end)
      then non_chunked
      else
        let trunc_len := chunk in
        if trunc_len =? 0 then (Return236, req, self)
        else
          let req := set_extend_input_len trunc_len req in
          let req := set_fill_ids
                       (slice_to (fill_ids req)
                          (len (prefix_indices req) + trunc_len)) req in
          let self := set_can_run_list (can_run_list self ++ [req]) self in
          let self := set_new_inflight_req (Some req) self in
          let '(_, tc) := tc_inc_lock_ref (last_node req) (tree_cache self) in
          let self := set_tree_cache tc self in
          let self := _prefill_one_req prefix_len trunc_len 0 self in
          (Return245, req, self)
    end.

Definition add_one_req_site (req : Req) self : ReturnSite * Req * PrefillAdder C :=
  _lock_req req add_one_req_body self.

Definition add_one_req (req : Req) self : bool * Req * PrefillAdder C :=
  let '(site, req, self) := add_one_req_site req self in
  (site_value site, req, self).

(** A sequence of calls on one adder; an exception ends it. *)
Fixpoint run_calls (calls : list AdderCall) self : PrefillAdder C :=
  match calls with
  | [] => self
  | AddOneReq req :: calls' =>
    let '(_, _, self) := add_one_req req self in
    run_calls calls' self
  | AddInflightReq req :: calls' =>
    match add_inflight_req req self with
    | (Return _, _, self) => run_calls calls' self
    | (Raises _, _, self) => self
    end
  end.
End Adder.

(** * Vocabulary of the statements *)

(** [min(req.sampling_params.max_new_tokens, CLIP_MAX_NEW_TOKENS)] *)
Definition clipped_new_tokens (clip : Z) (req : Req) : Z :=
  Z.min (max_new_tokens (sampling_params req)) clip.

(** [req.return_logprob and req.normalized_prompt_logprob is None] *)
Definition needs_prompt_logprob (req : Req) : bool :=
  return_logprob req
  && match normalized_prompt_logprob req with
     | None => true
     | Some _ => false
     end.

(** What a call leaves untouched besides the total budget and the cache. *)
Definition same_budgets {C : Type} (self self' : PrefillAdder C) : Prop :=
  rem_input_tokens self' = rem_input_tokens self
  ∧ rem_chunk_tokens self' = rem_chunk_tokens self
  ∧ can_run_list self' = can_run_list self
  ∧ new_inflight_req self' = new_inflight_req self
  ∧ log_hit_tokens self' = log_hit_tokens self
  ∧ log_input_tokens self' = log_input_tokens self.

(** The effect of an admission: the request is appended, the lock is
    taken once more, and [_prefill_one_req] debits the budgets. *)
Definition admitted {C : Type} (self self' : PrefillAdder C) (req' : Req)
    (prefix_len ext gen : Z) : Prop :=
  can_run_list self' = can_run_list self ++ [req']
  ∧ rem_total_tokens self' = rem_total_tokens self - (ext + gen)
  ∧ rem_input_tokens self' = rem_input_tokens self - ext
  ∧ rem_chunk_tokens self' = (λ c, c - ext) <$> rem_chunk_tokens self
  ∧ log_hit_tokens self' = log_hit_tokens self + prefix_len
  ∧ log_input_tokens self' = log_input_tokens self + ext
  ∧ ∃ delta,
      tc_calls (tree_cache self')
      = tc_calls (tree_cache self) ++ [CallIncLockRef (last_node req') delta].

(** The request a chunked admission appends. *)
Definition chunk_of (chunk : Z) (req : Req) : Req :=
  set_fill_ids (slice_to (fill_ids req) (len (prefix_indices req) + chunk))
    (set_extend_input_len chunk req).

(** The five ways through the body of [add_one_req], each with the
    conditions under which it is taken. *)
Inductive body_path {C : Type} (clip : Z) (req : Req) (self : PrefillAdder C)
  : ReturnSite → Req → PrefillAdder C → Prop :=
| path_total :
    rem_total_tokens self <= extend_input_len req + clipped_new_tokens clip req →
    body_path clip req self Return214 req self
| path_input :
    extend_input_len req + clipped_new_tokens clip req < rem_total_tokens self →
    rem_input_tokens self < extend_input_len req →
    can_run_list self ≠ [] →
    body_path clip req self Return217 req self
| path_non_chunked self' :
    extend_input_len req + clipped_new_tokens clip req < rem_total_tokens self →
    (extend_input_len req <= rem_input_tokens self ∨ can_run_list self = []) →
    (rem_chunk_tokens self = None
     ∨ (∃ chunk, rem_chunk_tokens self = Some chunk ∧ extend_input_len req <= chunk)
     ∨ needs_prompt_logprob req = true) →
    admitted self self' req (len (prefix_indices req)) (extend_input_len req)
      (clipped_new_tokens clip req) →
    new_inflight_req self' = new_inflight_req self →
    body_path clip req self Return245 req self'
| path_chunk_zero :
    extend_input_len req + clipped_new_tokens clip req < rem_total_tokens self →
    (extend_input_len req <= rem_input_tokens self ∨ can_run_list self = []) →
    rem_chunk_tokens self = Some 0 →
    0 < extend_input_len req →
    needs_prompt_logprob req = false →
    body_path clip req self Return236 req self
| path_chunked chunk self' :
    extend_input_len req + clipped_new_tokens clip req < rem_total_tokens self →
    (extend_input_len req <= rem_input_tokens self ∨ can_run_list self = []) →
    rem_chunk_tokens self = Some chunk →
    chunk < extend_input_len req →
    needs_prompt_logprob req = false →
    chunk ≠ 0 →
    admitted self self' (chunk_of chunk req) (len (prefix_indices req)) chunk 0 →
    new_inflight_req self' = Some (chunk_of chunk req) →
    body_path clip req self Return245 (chunk_of chunk req) self'.






(** The sum of the deltas the recorded calls returned. *)
Definition call_delta (c : CacheCall) : Z :=
  match c with
  | CallMatchPrefixLock _ d | CallIncLockRef _ d | CallDecLockRef _ d => d
  end.

Definition sum_deltas (calls : list CacheCall) : Z :=
  foldr (λ c acc, call_delta c + acc) 0 calls.

(** The same sum without the deltas of [inc_lock_ref]. *)
Definition sum_applied_deltas (calls : list CacheCall) : Z :=
  foldr (λ c acc, match c with
                  | CallIncLockRef _ _ => acc
                  | _ => call_delta c + acc
                  end) 0 calls.

(** Whether the chunk decision sends a request to the chunked branch. *)
Definition on_chunk_path {C : Type} (self : PrefillAdder C) (req : Req) : bool :=
  match rem_chunk_tokens self with
  | None => false
  | Some chunk => (chunk <? extend_input_len req) && negb (needs_prompt_logprob req)
  end.

(** What [_prefill_one_req] takes from [rem_total_tokens] in a call of
    [add_one_req] that returned [ret] for the request [req']. *)
Definition prefill_debit (clip : Z) (ret chunked : bool) (req' : Req) : Z :=
  if ret
  then extend_input_len req' + (if chunked then 0 else clipped_new_tokens clip req')
  else 0.

(** What [calc_weight] does on a tree whose nodes are distinct: outside
    the tree the table is unchanged, and every node of the tree gets the
    aggregate of the numbers the table held. *)
Definition weighs (n : TreeNode) : Prop :=
  ∀ m : gmap nat Z, NoDup (node_ids n) →
    (∀ j, j ∉ node_ids n → wget (calc_weight n m) j = wget m j)
    ∧ (∀ s, s ∈ nodes n →
         wget (calc_weight n m) (node_id s) = aggregate_weight (wget m) s).

(** The input ledger: what a call takes from the input budget and from a
    chunk budget it adds to [log_input_tokens]; a chunk budget that is
    unset stays unset. *)
Definition conserves_input {C : Type} (self self' : PrefillAdder C) : Prop :=
  rem_input_tokens self' + log_input_tokens self'
  = rem_input_tokens self + log_input_tokens self
  ∧ match rem_chunk_tokens self with
    | None => rem_chunk_tokens self' = None
    | Some c =>
      ∃ c', rem_chunk_tokens self' = Some c'
            ∧ c' + log_input_tokens self' = c + log_input_tokens self
    end.

(** The state of the adder after an admission of [req'] that debits
    [ext] input tokens and reserves [gen] tokens, [self1] being the adder
    after the re-match and [d_rel] the delta of the release. *)
Definition admitted_from {C : Type} (self self1 self' : PrefillAdder C)
    (req1 req' : Req) (ext gen d_rel : Z) : Prop :=
  can_run_list self' = can_run_list self ++ [req']
  ∧ rem_total_tokens self' = rem_total_tokens self1 - (ext + gen) + d_rel
  ∧ rem_input_tokens self' = rem_input_tokens self - ext
  ∧ rem_chunk_tokens self' = (λ c, c - ext) <$> rem_chunk_tokens self
  ∧ log_hit_tokens self' = log_hit_tokens self + len (prefix_indices req1)
  ∧ log_input_tokens self' = log_input_tokens self + ext.

(** ** A table-driven cache

    An implementation of the interface whose answers are read off a
    table: [tbl_match] gives the matched prefix and node of a key, and the
    three lock operations report fixed budget deltas.  It serves to run
    the scheduler on concrete inputs. *)
Record TableCache := mkTableCache {
  tbl_root : TreeNode;
  tbl_match : list Z → list Z * nat;
  tbl_lock_delta : Z;
  tbl_inc_delta : Z;
  tbl_dec_delta : Z;
}.

#[export] Instance TableCache_prefix_cache : BasePrefixCache TableCache := {|
  disable := λ _, false;
  root_node := tbl_root;
  match_prefix := λ _ key c, (tbl_match c key, c);
  match_prefix_lock := λ _ key c, ((tbl_match c key, tbl_lock_delta c), c);
  inc_lock_ref := λ _ c, (tbl_inc_delta c, c);
  dec_lock_ref := λ _ c, (tbl_dec_delta c, c);
|}.

(** Matches the first [n] entries of every key at node [node]. *)
Definition match_first (n : nat) (node : nat) (key : list Z) : list Z * nat :=
  (take n key, node).

Definition leaf (i : nat) : TreeNode := mkTreeNode i [].

(** A cache without budget deltas that finds [n] cached tokens at node 1. *)
Definition quiet_cache (n : nat) : TreeCache TableCache :=
  mkTreeCache (mkTableCache (mkTreeNode 0 [leaf 1]) (match_first n 1) 0 0 0) [].

(** A request that has [n] input tokens and has produced no output yet. *)
Definition fresh_req (n : nat) (max_new : Z) : Req :=
  mkReq "r" (replicate n 7) [] [] [] 0 0 (mkSamplingParams max_new) false None.

(** The key matched for a request: all of its tokens. *)
Definition whole_key (r : Req) : list Z := origin_input_ids r ++ output_ids r.

(** A tree with the root 0, its children 1 and 2, and node 3 below 2;
    a key is matched by its first tokens. *)
Definition demo_tree : TreeNode := mkTreeNode 0 [leaf 1; mkTreeNode 2 [leaf 3]].

Definition demo_match (key : list Z) : list Z * nat :=
  match key with
  | 1 :: _ => ([1], 1%nat)
  | 2 :: 3 :: _ => ([2; 3], 3%nat)
  | 2 :: _ => ([2], 2%nat)
  | _ => ([], 0%nat)
  end.

Definition demo_cache : TableCache := mkTableCache demo_tree demo_match 0 0 0.

Definition demo_req (name : string) (ids : list Z) : Req :=
  mkReq name ids [] [] [] 0 0 (mkSamplingParams 16) false None.

Definition demo_queue : list Req :=
  [demo_req "a" [1; 9]; demo_req "z" [9]; demo_req "b" [2; 3; 9]; demo_req "c" [2; 9]].

(** The queue after matching, and the walk over its tables. *)
Definition demo_matched : list Req := (match_all whole_key demo_queue demo_cache).1.

Definition demo_walk : TreeNode → list Req :=
  walk_from (dfs_node_to_weight demo_tree demo_matched) (dfs_last_node_to_reqs demo_matched).

(** The request of the next chunk: 100 tokens are still to be computed. *)
Definition pending_req : Req :=
  mkReq "r" (replicate 100 7) [] (replicate 100 7) [] 0 100
        (mkSamplingParams 50) false None.

(** A request with 2 cached and 48 new tokens, offered to an adder whose
    chunk budget is -3. *)
Definition negative_chunk_call : bool * Req * PrefillAdder TableCache :=
  add_one_req 4096 whole_key (fresh_req 50 50)
    (PrefillAdder_init (quiet_cache 2) 1000 1000 (Some (-3)) 0).

(** A cache that reports a delta on every lock operation, and the
    admission of a request of 100 tokens against it. *)
Definition charging_cache : TreeCache TableCache :=
  mkTreeCache (mkTableCache (mkTreeNode 0 [leaf 1]) (match_first 0 1) 5 (-7) 3) [].

Definition charged_call : bool * Req * PrefillAdder TableCache :=
  add_one_req 4096 whole_key (fresh_req 100 50)
    (PrefillAdder_init charging_cache 1000 1000 None 0).

(** A disabled cache, as the server uses when prefix caching is switched
    off: it matches nothing, always at its root, and its locks move no
    budget. *)
Record NoCache := mkNoCache { nc_root : TreeNode }.

#[export] Instance NoCache_prefix_cache : BasePrefixCache NoCache := {|
  disable := λ _, true;
  root_node := nc_root;
  match_prefix := λ _ _ c, (([], node_id (nc_root c)), c);
  match_prefix_lock := λ _ _ c, (([], node_id (nc_root c), 0), c);
  inc_lock_ref := λ _ c, (0, c);
  dec_lock_ref := λ _ c, (0, c);
|}.

(** * Properties of the PolicyScheduler *)

Lemma TreeNode_ind (P : TreeNode → Prop) :
  (∀ i cs, Forall P cs → P (mkTreeNode i cs)) → ∀ n, P n.
Proof.
  intros Hnode. fix IH 1. intros [i cs]. apply Hnode.
  induction cs as [|c cs IHcs]; constructor; [apply IH | exact IHcs].
Qed.

Lemma elem_of_flat_map {A B : Type} (f : A → list B) (l : list A) (y : B) :
  y ∈ flat_map f l ↔ ∃ x, x ∈ l ∧ y ∈ f x.
Proof.
  rewrite list_elem_of_In, in_flat_map.
  split; intros (x & Hx & Hy); exists x; by rewrite ?list_elem_of_In in *.
Qed.

Lemma sum_Z_app (l1 l2 : list Z) : sum_Z (l1 ++ l2) = sum_Z l1 + sum_Z l2.
Proof. induction l1 as [|x l1 IH]; simpl; [done|]. rewrite IH. lia. Qed.

(** ** Sorting *)

Section Sorting_facts.
Context {A : Type} (key : A → Z).

Lemma insert_by_key_perm x l : insert_by_key key x l ≡ₚ x :: l.
Proof.
  induction l as [|y l IH]; simpl; [done|].
  destruct (key x <=? key y); [done|].
  rewrite IH. apply Permutation_swap.
Qed.

Lemma sort_by_key_perm l : sort_by_key key l ≡ₚ l.
Proof.
  induction l as [|x l IH]; simpl; [done|].
  unfold sort_by_key in *. simpl. by rewrite insert_by_key_perm, IH.
Qed.

Lemma insert_by_key_sorted x l :
  StronglySorted (λ a b, key a <= key b) l →
  StronglySorted (λ a b, key a <= key b) (insert_by_key key x l).
Proof.
  induction 1 as [|y l Hs IH Hall]; simpl.
  - repeat constructor.
  - destruct (Z.leb_spec (key x) (key y)) as [Hle|Hgt].
    + constructor; [by constructor|].
      constructor; [done|].
      eapply Forall_impl; [exact Hall|]. simpl. intros z Hz. lia.
    + constructor; [exact IH|].
      rewrite insert_by_key_perm. constructor; [lia | exact Hall].
Qed.

Lemma sort_by_key_sorted l :
  StronglySorted (λ a b, key a <= key b) (sort_by_key key l).
Proof.
  induction l as [|x l IH]; [constructor|].
  unfold sort_by_key in *. simpl. by apply insert_by_key_sorted.
Qed.

(** In a sorted list an element with a smaller key stands before one
    with a greater key. *)
Lemma sorted_before (l : list A) (x y : A) :
  StronglySorted (λ a b, key a <= key b) l →
  x ∈ l → y ∈ l → key x < key y →
  ∃ l1 l2 l3, l = l1 ++ x :: l2 ++ y :: l3.
Proof.
  intros Hs Hx Hy Hlt.
  apply list_elem_of_split in Hy as (k1 & k2 & ->).
  apply elem_of_app in Hx as [Hx|Hx].
  - apply list_elem_of_split in Hx as (l1 & l2 & ->).
    exists l1, l2, k2. by rewrite <- app_assoc.
  - exfalso. apply StronglySorted_app_1_r in Hs.
    apply StronglySorted_inv in Hs as [_ Hall].
    apply elem_of_cons in Hx as [->|Hx]; [lia|].
    rewrite Forall_forall in Hall. specialize (Hall x Hx). simpl in Hall. lia.
Qed.

Lemma sort_by_key_before (l : list A) (x y : A) :
  x ∈ l → y ∈ l → key x < key y →
  ∃ l1 l2 l3, sort_by_key key l = l1 ++ x :: l2 ++ y :: l3.
Proof.
  intros Hx Hy. apply sorted_before.
  - apply sort_by_key_sorted.
  - by rewrite sort_by_key_perm.
  - by rewrite sort_by_key_perm.
Qed.
End Sorting_facts.

Lemma sort_by_key_map {A B : Type} (f : A → B) (key : A → Z) (key' : B → Z) l :
  (∀ x, key' (f x) = key x) →
  sort_by_key key' (map f l) = map f (sort_by_key key l).
Proof.
  intros Hkey. unfold sort_by_key.
  induction l as [|x l IH]; simpl; [done|]. rewrite IH. clear IH.
  induction (foldr (insert_by_key key) [] l) as [|y k IH]; simpl; [done|].
  rewrite !Hkey. destruct (key x <=? key y); simpl; [done|]. by rewrite IH.
Qed.

(** ** Trees *)

Lemma node_id_in_node_ids n : node_id n ∈ node_ids n.
Proof. destruct n as [i cs]. simpl. apply list_elem_of_here. Qed.

Lemma nodes_self n : n ∈ nodes n.
Proof. destruct n as [i cs]. simpl. apply list_elem_of_here. Qed.

Lemma children_nodes n c : c ∈ children n → c ∈ nodes n.
Proof.
  destruct n as [i cs]. simpl. intros Hc.
  apply list_elem_of_further, elem_of_flat_map. exists c. split; [done|apply nodes_self].
Qed.

Lemma nodes_trans n : ∀ s t, s ∈ nodes n → t ∈ nodes s → t ∈ nodes n.
Proof.
  induction n as [i cs IH] using TreeNode_ind. intros s t Hs Ht.
  simpl in Hs. apply elem_of_cons in Hs as [->|Hs]; [done|].
  apply elem_of_flat_map in Hs as (c & Hc & Hs).
  simpl. apply list_elem_of_further, elem_of_flat_map. exists c. split; [done|].
  rewrite Forall_forall in IH. by apply (IH c Hc s t).
Qed.

Lemma nodes_node_ids n : ∀ s j, s ∈ nodes n → j ∈ node_ids s → j ∈ node_ids n.
Proof.
  induction n as [i cs IH] using TreeNode_ind. intros s j Hs Hj.
  simpl in Hs. apply elem_of_cons in Hs as [->|Hs]; [done|].
  apply elem_of_flat_map in Hs as (c & Hc & Hs).
  simpl. apply list_elem_of_further, elem_of_flat_map. exists c. split; [done|].
  rewrite Forall_forall in IH. by apply (IH c Hc s j).
Qed.

Lemma aggregate_weight_unfold direct i cs :
  aggregate_weight direct (mkTreeNode i cs)
  = direct i + sum_Z (map (aggregate_weight direct) cs).
Proof. simpl. f_equal. induction cs as [|c cs IH]; simpl; [done|]. by rewrite IH. Qed.

Lemma aggregate_weight_ext f g n :
  (∀ j, j ∈ node_ids n → f j = g j) → aggregate_weight f n = aggregate_weight g n.
Proof.
  induction n as [i cs IH] using TreeNode_ind. intros Hfg.
  rewrite !aggregate_weight_unfold. f_equal.
  - apply Hfg. simpl. apply list_elem_of_here.
  - f_equal. apply map_ext_in. intros c Hc. apply list_elem_of_In in Hc.
    rewrite Forall_forall in IH. apply (IH c Hc). intros j Hj. apply Hfg.
    simpl. apply list_elem_of_further, elem_of_flat_map. eauto.
Qed.

(** The weight of a node is the number attached to the nodes of its
    subtree, summed. *)
Lemma aggregate_weight_nodes direct n :
  aggregate_weight direct n = sum_Z (map (λ d, direct (node_id d)) (nodes n)).
Proof.
  induction n as [i cs IH] using TreeNode_ind.
  rewrite aggregate_weight_unfold. simpl. f_equal.
  induction IH as [|c cs Hc _ IHcs]; simpl; [done|].
  by rewrite map_app, sum_Z_app, Hc, IHcs.
Qed.

(** ** calc_weight *)

Lemma wget_insert (m : gmap nat Z) i j v :
  wget (<[i := v]> m) j = if decide (i = j) then v else wget m j.
Proof. unfold wget. rewrite lookup_insert. by case_decide. Qed.

Lemma calc_weight_unfold i cs m :
  calc_weight (mkTreeNode i cs) m = calc_weight_children i cs m.
Proof. revert m. induction cs as [|c cs IH]; intros m; simpl; [done|]. apply IH. Qed.

Lemma calc_weight_children_spec i cs :
  Forall weighs cs →
  ∀ m : gmap nat Z,
    i ∉ flat_map node_ids cs →
    NoDup (flat_map node_ids cs) →
    (∀ j, j ≠ i → j ∉ flat_map node_ids cs →
       wget (calc_weight_children i cs m) j = wget m j)
    ∧ wget (calc_weight_children i cs m) i
      = wget m i + sum_Z (map (aggregate_weight (wget m)) cs)
    ∧ (∀ c s, c ∈ cs → s ∈ nodes c →
         wget (calc_weight_children i cs m) (node_id s) = aggregate_weight (wget m) s).
Proof.
  induction 1 as [|c cs Hc _ IH]; intros m Hi Hnd; simpl.
  { split; [done|]. split; [lia|]. intros c s Hin. by apply elem_of_nil in Hin. }
  simpl in Hi, Hnd.
  apply not_elem_of_app in Hi as [Hic Hics].
  apply NoDup_app in Hnd as (Hndc & Hdisj & Hndcs).
  destruct (Hc m Hndc) as [Hframe Hagg].
  set (m1 := calc_weight c m) in *.
  set (m2 := <[i := wget m1 i + wget m1 (node_id c)]> m1).
  destruct (IH m2 Hics Hndcs) as (Hf2 & Hi2 & Hs2).
  assert (Hm2 : ∀ j, j ≠ i → wget m2 j = wget m1 j).
  { intros j Hj. unfold m2. rewrite wget_insert. by case_decide. }
  assert (Hext : ∀ c', c' ∈ cs → ∀ s, s ∈ nodes c' →
                   aggregate_weight (wget m2) s = aggregate_weight (wget m) s).
  { intros c' Hc' s Hs. apply aggregate_weight_ext. intros j Hj.
    assert (Hjc' : j ∈ node_ids c') by (by eapply nodes_node_ids).
    assert (Hjcs : j ∈ flat_map node_ids cs) by (apply elem_of_flat_map; eauto).
    rewrite Hm2 by (intros ->; done).
    apply Hframe. intros Hjc. by apply (Hdisj j). }
  split; [|split].
  - intros j Hji Hj. apply not_elem_of_app in Hj as [Hjc Hjcs].
    rewrite Hf2 by done. rewrite Hm2 by done. by apply Hframe.
  - rewrite Hi2. unfold m2 at 1. rewrite wget_insert. case_decide; [|done].
    rewrite (Hframe i Hic), (Hagg c (nodes_self c)).
    assert (map (aggregate_weight (wget m2)) cs = map (aggregate_weight (wget m)) cs)
      as ->; [|lia].
    apply map_ext_in. intros c' Hc'. apply list_elem_of_In in Hc'.
    apply (Hext c' Hc' c'), nodes_self.
  - intros c' s Hc' Hs. apply elem_of_cons in Hc' as [->|Hc'].
    + assert (Hsc : node_id s ∈ node_ids c).
      { eapply nodes_node_ids; [exact Hs|apply node_id_in_node_ids]. }
      rewrite Hf2.
      * rewrite Hm2 by (intros Heq; by rewrite Heq in Hsc). by apply Hagg.
      * intros Heq. by rewrite Heq in Hsc.
      * by apply Hdisj.
    + rewrite (Hs2 c' s Hc' Hs). by apply (Hext c').
Qed.

Lemma calc_weight_spec n : weighs n.
Proof.
  induction n as [i cs IH] using TreeNode_ind. intros m Hnd.
  simpl in Hnd. apply NoDup_cons in Hnd as [Hi Hnd].
  destruct (calc_weight_children_spec i cs IH m Hi Hnd) as (Hframe & Hroot & Hsub).
  rewrite calc_weight_unfold. split.
  - intros j Hj. simpl in Hj. apply not_elem_of_cons in Hj as [Hji Hj]. by apply Hframe.
  - intros s Hs. simpl in Hs. apply elem_of_cons in Hs as [->|Hs].
    + simpl node_id. by rewrite aggregate_weight_unfold.
    + apply elem_of_flat_map in Hs as (c & Hc & Hs). by apply (Hsub c).
Qed.

(** ** get_dfs_priority *)

Section Walk_facts.
Variable node_to_priority : gmap nat Z.
Variable last_node_to_reqs : gmap nat (list Req).

#[local] Abbreviation visit := (get_dfs_priority_from node_to_priority last_node_to_reqs).
#[local] Abbreviation walk := (walk_from node_to_priority last_node_to_reqs).
#[local] Abbreviation by_priority :=
  (sort_by_key (λ c, - wget node_to_priority (node_id c))).

Lemma get_dfs_priority_node i cs q :
  visit (mkTreeNode i cs) q
  = fold_left (λ q c, visit c q) (by_priority cs) q ++ rget last_node_to_reqs i.
Proof.
  unfold get_dfs_priority_from. simpl. f_equal.
  rewrite (sort_by_key_map
             (λ child, (child, get_dfs_priority child node_to_priority last_node_to_reqs))
             (λ c, - wget node_to_priority (node_id c))) by done.
  generalize (by_priority cs). intros l. revert q.
  induction l as [|c l IH]; intros q; simpl; [done|]. apply IH.
Qed.

Lemma fold_left_visit (l : list TreeNode) :
  Forall (λ c, ∀ q, visit c q = q ++ walk c) l →
  ∀ q, fold_left (λ q c, visit c q) l q = q ++ concat (map walk l).
Proof.
  induction 1 as [|c l Hc _ IH]; intros q; simpl.
  - by rewrite app_nil_r.
  - rewrite IH, Hc. by rewrite <- app_assoc.
Qed.

(** Walking a node appends to [q] what the walk puts into an empty
    queue. *)
Lemma get_dfs_priority_app n : ∀ q, visit n q = q ++ walk n.
Proof.
  induction n as [i cs IH] using TreeNode_ind. intros q.
  assert (Hs : Forall (λ c, ∀ q, visit c q = q ++ walk c) (by_priority cs)).
  { by rewrite sort_by_key_perm. }
  change (walk (mkTreeNode i cs)) with (visit (mkTreeNode i cs) []).
  rewrite !get_dfs_priority_node, !fold_left_visit by done.
  simpl. by rewrite <- app_assoc.
Qed.

Lemma walk_node i cs :
  walk (mkTreeNode i cs)
  = concat (map walk (by_priority cs)) ++ rget last_node_to_reqs i.
Proof.
  change (walk (mkTreeNode i cs)) with (visit (mkTreeNode i cs) []).
  rewrite get_dfs_priority_node, fold_left_visit; [done|].
  apply Forall_forall. intros c _. apply get_dfs_priority_app.
Qed.

Lemma concat_map_split (l1 l2 : list TreeNode) c :
  concat (map walk (l1 ++ c :: l2))
  = concat (map walk l1) ++ walk c ++ concat (map walk l2).
Proof. by rewrite map_app, concat_app. Qed.

(** The walk of a node holds the walk of each node below it as one
    block. *)
Lemma walk_contains n : ∀ s, s ∈ nodes n → ∃ a b, walk n = a ++ walk s ++ b.
Proof.
  induction n as [i cs IH] using TreeNode_ind. intros s Hs.
  simpl in Hs. apply elem_of_cons in Hs as [->|Hs].
  { exists [], []. by rewrite app_nil_r. }
  apply elem_of_flat_map in Hs as (c & Hc & Hs).
  rewrite Forall_forall in IH. destruct (IH c Hc s Hs) as (a & b & Hab).
  assert (Hin : c ∈ by_priority cs) by (by rewrite sort_by_key_perm).
  apply list_elem_of_split in Hin as (l1 & l2 & Hl).
  rewrite walk_node, Hl, concat_map_split, Hab.
  exists (concat (map walk l1) ++ a), (b ++ concat (map walk l2) ++ rget last_node_to_reqs i).
  by rewrite <- !app_assoc.
Qed.

(** Of two children of a node, the one with the greater priority is
    walked first. *)
Lemma walk_siblings i cs c1 c2 :
  c1 ∈ cs → c2 ∈ cs →
  wget node_to_priority (node_id c1) > wget node_to_priority (node_id c2) →
  ∃ pre mid post,
    walk (mkTreeNode i cs) = pre ++ walk c1 ++ mid ++ walk c2 ++ post.
Proof.
  intros H1 H2 Hgt.
  destruct (sort_by_key_before (λ c, - wget node_to_priority (node_id c)) cs c1 c2)
    as (l1 & l2 & l3 & Hl); [done|done|lia|].
  rewrite walk_node, Hl, concat_map_split, concat_map_split.
  exists (concat (map walk l1)), (concat (map walk l2)),
         (concat (map walk l3) ++ rget last_node_to_reqs i).
  by rewrite <- !app_assoc.
Qed.
End Walk_facts.

(** ** The tables of the dfs-weight branch *)

Lemma rget_insert (d : gmap nat (list Req)) i j v :
  rget (<[i := v]> d) j = if decide (i = j) then v else rget d j.
Proof. unfold rget. rewrite lookup_insert. by case_decide. Qed.

Lemma fold_left_group q : ∀ (d : gmap nat (list Req)) i,
  rget (fold_left
          (λ d req, <[last_node req := rget d (last_node req) ++ [req]]> d) q d) i
  = rget d i ++ matched_at q i.
Proof.
  induction q as [|r q IH]; intros d i; simpl.
  - by rewrite app_nil_r.
  - rewrite IH, rget_insert.
    destruct (decide (last_node r = i)) as [->|Hne]; [|done].
    by rewrite <- app_assoc.
Qed.

Lemma dfs_last_node_to_reqs_spec q i :
  rget (dfs_last_node_to_reqs q) i = matched_at q i.
Proof. unfold dfs_last_node_to_reqs. by rewrite fold_left_group. Qed.

Lemma wget_direct q i :
  wget ((λ reqs : list Req, len reqs) <$> dfs_last_node_to_reqs q) i
  = len (matched_at q i).
Proof.
  rewrite <- dfs_last_node_to_reqs_spec. unfold wget, rget.
  rewrite lookup_fmap. by destruct (dfs_last_node_to_reqs q !! i).
Qed.

Lemma StronglySorted_weaken {A : Type} (R R' : A → A → Prop) l :
  (∀ a b, R a b → R' a b) → StronglySorted R l → StronglySorted R' l.
Proof.
  intros HR. induction 1 as [|x l _ IH Hall]; constructor; [done|].
  eapply Forall_impl; [exact Hall|]. intros y. apply HR.
Qed.

(** After [calc_weight], the table holds for every node of the tree the
    aggregate of the request counts. *)
Lemma dfs_node_to_weight_spec root q n :
  NoDup (node_ids root) → n ∈ nodes root →
  wget (dfs_node_to_weight root q) (node_id n)
  = aggregate_weight (λ i, len (matched_at q i)) n.
Proof.
  intros Hnd Hn. unfold dfs_node_to_weight.
  destruct (calc_weight_spec root
              ((λ reqs : list Req, len reqs) <$> dfs_last_node_to_reqs q) Hnd)
    as [_ Hagg].
  rewrite (Hagg n Hn). apply aggregate_weight_ext. intros j _. apply wget_direct.
Qed.

Section Orderer_facts.
Context {C : Type} `{BasePrefixCache C}.
Variable adjust_max_prefix_ids : Req → list Z.
Variable shuffle : list Req → list Req.

(** C5: under the dfs-weight policy, with [q] the queue after the
    prefix matching and a tree of distinct nodes below the root,
    [calc_priority] returns the walk from the root, and
    - every node of the tree has as weight the number of requests
      matched at it plus the weights of its children, which is the number
      of requests matched at the node or anywhere below it;
    - the walk of a node is the walks of its children, taken in an order
      of non-increasing weight, followed by the requests matched at the
      node itself;
    - of two children of one node, the walk of the one with the strictly
      greater weight stands as a whole before the walk of the other in
      the queue returned. *)
Theorem dfs_weight_order_spec (self : PolicyScheduler C) waiting_queue q c :
  policy self = "dfs-weight" →
  match_all adjust_max_prefix_ids waiting_queue (ps_tree_cache self) = (q, c) →
  NoDup (node_ids (root_node c)) →
  let weight := λ n, wget (dfs_node_to_weight (root_node c) q) (node_id n) in
  let walk := walk_from (dfs_node_to_weight (root_node c) q) (dfs_last_node_to_reqs q) in
  calc_priority adjust_max_prefix_ids shuffle self waiting_queue
  = (Return (), walk (root_node c), mkPolicyScheduler "dfs-weight" c)
  ∧ (∀ n, n ∈ nodes (root_node c) →
       weight n = len (matched_at q (node_id n)) + sum_Z (map weight (children n))
       ∧ weight n = sum_Z (map (λ d, len (matched_at q (node_id d))) (nodes n))
       ∧ ∃ order,
           order ≡ₚ children n
           ∧ StronglySorted (λ a b, weight a >= weight b) order
           ∧ walk n = concat (map walk order) ++ matched_at q (node_id n))
  ∧ (∀ n c1 c2,
       n ∈ nodes (root_node c) → c1 ∈ children n → c2 ∈ children n →
       weight c1 > weight c2 →
       ∃ pre mid post, walk (root_node c) = pre ++ walk c1 ++ mid ++ walk c2 ++ post).
Proof.
  intros Hpol Hmatch Hnd weight walk.
  split; [|split].
  - unfold calc_priority. rewrite Hpol, Hmatch. simpl. reflexivity.
  - intros n Hn. split; [|split].
    + unfold weight. rewrite dfs_node_to_weight_spec by done.
      destruct n as [i cs]. rewrite aggregate_weight_unfold. simpl. do 2 f_equal.
      apply map_ext_in. intros c' Hc'. apply list_elem_of_In in Hc'.
      symmetry. apply dfs_node_to_weight_spec; [done|].
      eapply nodes_trans; [exact Hn|]. by apply children_nodes.
    + unfold weight. rewrite dfs_node_to_weight_spec by done.
      apply aggregate_weight_nodes.
    + destruct n as [i cs]. simpl.
      exists (sort_by_key (λ c', - weight c') cs). split; [|split].
      * apply sort_by_key_perm.
      * eapply StronglySorted_weaken; [|apply sort_by_key_sorted].
        simpl. intros a b. lia.
      * unfold walk. by rewrite walk_node, dfs_last_node_to_reqs_spec.
  - intros n c1 c2 Hn H1 H2 Hgt.
    destruct (walk_contains (dfs_node_to_weight (root_node c) q)
                (dfs_last_node_to_reqs q) _ n Hn) as (a & b & Hab).
    destruct n as [i cs]. simpl in H1, H2.
    destruct (walk_siblings (dfs_node_to_weight (root_node c) q)
                (dfs_last_node_to_reqs q) i cs c1 c2 H1 H2 Hgt)
      as (pre & mid & post & Hw).
    unfold walk. rewrite Hab, Hw.
    exists (a ++ pre), mid, (post ++ b). by rewrite <- !app_assoc.
Qed.
End Orderer_facts.

(** * Further properties of the PolicyScheduler *)

(** ** Stability of the sort *)

Lemma insert_by_key_filter {A : Type} (key : A → Z) (k : Z) x l :
  filter (λ y, key y = k) (insert_by_key key x l)
  = filter (λ y, key y = k) (x :: l).
Proof.
  induction l as [|y l IH]; simpl; [done|].
  destruct (Z.leb_spec (key x) (key y)) as [Hle|Hgt]; [done|].
  rewrite (filter_cons _ y), IH, !(filter_cons _ x), (filter_cons _ y).
  repeat case_decide; try done. lia.
Qed.

Lemma sort_by_key_stable {A : Type} (key : A → Z) (k : Z) l :
  filter (λ y, key y = k) (sort_by_key key l) = filter (λ y, key y = k) l.
Proof.
  induction l as [|x l IH]; [done|].
  unfold sort_by_key in *. simpl.
  by rewrite insert_by_key_filter, !(filter_cons _ x), IH.
Qed.

(** ** The walk as a collection of requests *)

Lemma concat_map_perm {A B : Type} (f : A → list B) (l l' : list A) :
  l ≡ₚ l' → concat (map f l) ≡ₚ concat (map f l').
Proof.
  induction 1 as [|x l l' _ IH|x y l|l1 l2 l3 _ IH1 _ IH2]; simpl.
  - done.
  - by rewrite IH.
  - rewrite !app_assoc. f_equiv. apply Permutation_app_comm.
  - by rewrite IH1.
Qed.

Lemma node_ids_nodes n : node_ids n = map node_id (nodes n).
Proof.
  induction n as [i cs IH] using TreeNode_ind. simpl. f_equal.
  induction IH as [|c cs Hc _ IHcs]; simpl; [done|].
  by rewrite map_app, Hc, IHcs.
Qed.

Lemma concat_flat_map {A B : Type} (f : A → list B) (g : B → list Req) (l : list A) :
  concat (map g (flat_map f l)) = concat (map (λ x, concat (map g (f x))) l).
Proof.
  induction l as [|x l IH]; simpl; [done|].
  by rewrite map_app, concat_app, IH.
Qed.

Lemma matched_at_skip r q (ids : list nat) :
  last_node r ∉ ids → map (matched_at (r :: q)) ids = map (matched_at q) ids.
Proof.
  intros Hr. apply map_ext_in. intros i Hi. simpl.
  rewrite decide_False; [done|].
  intros Heq. apply Hr. rewrite Heq. by apply list_elem_of_In.
Qed.

Lemma matched_at_cons r q i :
  matched_at (r :: q) i
  = if decide (last_node r = i) then r :: matched_at q i else matched_at q i.
Proof. done. Qed.

Lemma matched_at_take r q (ids : list nat) :
  NoDup ids → last_node r ∈ ids →
  concat (map (matched_at (r :: q)) ids) ≡ₚ r :: concat (map (matched_at q) ids).
Proof.
  induction ids as [|i ids IH]; intros Hnd Hr.
  { by apply elem_of_nil in Hr. }
  apply NoDup_cons in Hnd as [Hi Hnd]. cbn [map concat].
  rewrite matched_at_cons.
  destruct (decide (last_node r = i)) as [Heq|Hne].
  - rewrite matched_at_skip by (by rewrite Heq). done.
  - apply elem_of_cons in Hr as [Heq|Hr]; [done|].
    rewrite (IH Hnd Hr). by rewrite Permutation_middle.
Qed.

(** The requests matched at the nodes of a list of distinct nodes are
    the requests of the queue whose node is in the list. *)
Lemma matched_at_collect q (ids : list nat) :
  NoDup ids →
  concat (map (matched_at q) ids) ≡ₚ filter (λ r, last_node r ∈ ids) q.
Proof.
  intros Hnd. induction q as [|r q IH].
  { clear Hnd. induction ids as [|i ids IHi]; [done|]. simpl. by apply IHi. }
  rewrite filter_cons. case_decide as Hr.
  - by rewrite matched_at_take, IH.
  - by rewrite matched_at_skip, IH.
Qed.

Section Walk_collect.
Variable node_to_priority : gmap nat Z.
Variable last_node_to_reqs : gmap nat (list Req).

Lemma walk_from_perm n :
  walk_from node_to_priority last_node_to_reqs n
  ≡ₚ concat (map (rget last_node_to_reqs) (node_ids n)).
Proof.
  induction n as [i cs IH] using TreeNode_ind.
  rewrite walk_node. simpl.
  rewrite (concat_map_perm _ _ cs) by apply sort_by_key_perm.
  rewrite Permutation_app_comm. simpl. f_equiv.
  rewrite concat_flat_map.
  induction IH as [|c cs Hc _ IHcs]; simpl; [done|].
  by rewrite Hc, IHcs.
Qed.

(** X7: whatever the tables hold, [get_dfs_priority] keeps [q] as it is
    and appends to it, in some order, the requests the table holds for
    the nodes of the tree, each node taken once per occurrence. *)
Theorem get_dfs_priority_appends n q :
  ∃ w,
    get_dfs_priority n node_to_priority last_node_to_reqs q = q ++ w
    ∧ w = get_dfs_priority n node_to_priority last_node_to_reqs []
    ∧ w ≡ₚ concat (map (rget last_node_to_reqs) (node_ids n)).
Proof.
  exists (get_dfs_priority n node_to_priority last_node_to_reqs []).
  split; [|split; [done|]].
  - apply (get_dfs_priority_app node_to_priority last_node_to_reqs n q).
  - apply walk_from_perm.
Qed.
End Walk_collect.

(** ** Weights *)

Lemma sum_Z_nonneg (l : list Z) : Forall (λ x, 0 <= x) l → 0 <= sum_Z l.
Proof. induction 1 as [|x l Hx _ IH]; simpl; lia. Qed.

Lemma sum_Z_elem (l : list Z) x :
  Forall (λ y, 0 <= y) l → x ∈ l → x <= sum_Z l.
Proof.
  induction 1 as [|y l Hy Hl IH]; intros Hx.
  - by apply elem_of_nil in Hx.
  - pose proof (sum_Z_nonneg l Hl). simpl.
    apply elem_of_cons in Hx as [->|Hx]; [lia|]. specialize (IH Hx). lia.
Qed.

Lemma aggregate_weight_nonneg direct n :
  (∀ i, 0 <= direct i) → 0 <= aggregate_weight direct n.
Proof.
  intros Hd. rewrite aggregate_weight_nodes. apply sum_Z_nonneg.
  apply Forall_forall. intros x Hx. apply list_elem_of_In, in_map_iff in Hx.
  destruct Hx as (d & <- & _). apply Hd.
Qed.

Lemma len_nonneg {A : Type} (l : list A) : 0 <= len l.
Proof. unfold len. lia. Qed.

(** X8: in a tree of distinct nodes the weights of the dfs-weight policy
    are never negative, and a node weighs at least as much as each of its
    children. *)
Theorem dfs_weights_monotone root q n c :
  NoDup (node_ids root) → n ∈ nodes root → c ∈ children n →
  0 <= wget (dfs_node_to_weight root q) (node_id c)
  ∧ wget (dfs_node_to_weight root q) (node_id c)
    <= wget (dfs_node_to_weight root q) (node_id n).
Proof.
  intros Hnd Hn Hc.
  assert (Hcn : c ∈ nodes root).
  { eapply nodes_trans; [exact Hn|]. by apply children_nodes. }
  rewrite !dfs_node_to_weight_spec by done.
  pose proof (aggregate_weight_nonneg (λ i, len (matched_at q i))) as Hpos.
  split; [apply Hpos; intros i; apply len_nonneg|].
  destruct n as [i cs]. simpl in Hc. rewrite aggregate_weight_unfold.
  pose proof (len_nonneg (matched_at q i)).
  assert (aggregate_weight (λ i, len (matched_at q i)) c
          <= sum_Z (map (aggregate_weight (λ i, len (matched_at q i))) cs)); [|lia].
  apply sum_Z_elem.
  - apply Forall_forall. intros x Hx. apply list_elem_of_In, in_map_iff in Hx.
    destruct Hx as (d & <- & _). apply Hpos. intros j. apply len_nonneg.
  - apply list_elem_of_In, in_map_iff. exists c. split; [done|].
    by apply list_elem_of_In.
Qed.

Lemma filter_all {A : Type} (P : A → Prop) `{∀ x, Decision (P x)} (l : list A) :
  (∀ x, x ∈ l → P x) → filter P l = l.
Proof.
  induction l as [|x l IH]; intros Hall; [done|].
  rewrite filter_cons_True by (apply Hall, list_elem_of_here).
  f_equal. apply IH. intros y Hy. by apply Hall, list_elem_of_further.
Qed.

Section Orderer_more.
Context {C : Type} `{BasePrefixCache C}.
Variable adjust_max_prefix_ids : Req → list Z.
Variable shuffle : list Req → list Req.

(** X1: a scheduler built for "lpm" or "dfs-weight" on a disabled cache
    runs first come first served: [calc_priority] gives the queue back as
    it is and does not touch the cache. *)
Theorem disabled_cache_is_fcfs (policy : string) (tree_cache : C) waiting_queue :
  disable tree_cache = true →
  policy = "lpm" ∨ policy = "dfs-weight" ∨ policy = "fcfs" →
  calc_priority adjust_max_prefix_ids shuffle
    (PolicyScheduler_init policy tree_cache) waiting_queue
  = (Return (), waiting_queue, mkPolicyScheduler "fcfs" tree_cache).
Proof.
  intros Hd Hp. unfold PolicyScheduler_init, calc_priority. rewrite Hd.
  destruct Hp as [-> | [-> | ->]]; reflexivity.
Qed.

(** X2: a policy name that is none of the five known ones makes
    [calc_priority] raise [ValueError]; the queue keeps its order and the
    cache is not asked anything. *)
Theorem unknown_policy_raises (self : PolicyScheduler C) waiting_queue :
  policy self ∉ ["lpm"; "fcfs"; "lof"; "random"; "dfs-weight"] →
  calc_priority adjust_max_prefix_ids shuffle self waiting_queue
  = (Raises ValueError, waiting_queue, self).
Proof.
  intros Hp. destruct self as [pol c]. simpl in Hp.
  repeat (apply not_elem_of_cons in Hp as [? Hp]).
  unfold calc_priority. simpl.
  rewrite !bool_decide_eq_false_2 by done. reflexivity.
Qed.

(** X3: under "lpm" the queue returned holds the matched requests, each
    once, in an order of non-increasing prefix length, and requests with
    prefixes of the same length keep their order in the queue. *)
Theorem lpm_order_spec (self : PolicyScheduler C) waiting_queue q c :
  policy self = "lpm" →
  match_all adjust_max_prefix_ids waiting_queue (ps_tree_cache self) = (q, c) →
  ∃ out,
    calc_priority adjust_max_prefix_ids shuffle self waiting_queue
    = (Return (), out, mkPolicyScheduler "lpm" c)
    ∧ out ≡ₚ q
    ∧ StronglySorted (λ a b, len (prefix_indices a) >= len (prefix_indices b)) out
    ∧ ∀ k, filter (λ r, len (prefix_indices r) = k) out
           = filter (λ r, len (prefix_indices r) = k) q.
Proof.
  intros Hpol Hmatch.
  exists (sort_by_key (λ x, - len (prefix_indices x)) q).
  split; [|split; [|split]].
  - unfold calc_priority. rewrite Hpol, Hmatch. reflexivity.
  - apply sort_by_key_perm.
  - eapply StronglySorted_weaken; [|apply sort_by_key_sorted].
    simpl. intros a b. lia.
  - intros k.
    rewrite (list_filter_iff _ (λ r, - len (prefix_indices r) = - k)
               (sort_by_key _ q)) by (intros r; lia).
    rewrite (list_filter_iff _ (λ r, - len (prefix_indices r) = - k) q)
      by (intros r; lia).
    apply (sort_by_key_stable (λ x, - len (prefix_indices x))).
Qed.

(** X4: under "lof" the cache is left alone, and the queue returned holds
    the same requests in an order of non-increasing [max_new_tokens];
    requests that ask for the same number keep their order. *)
Theorem lof_order_spec (self : PolicyScheduler C) waiting_queue :
  policy self = "lof" →
  ∃ out,
    calc_priority adjust_max_prefix_ids shuffle self waiting_queue
    = (Return (), out, self)
    ∧ out ≡ₚ waiting_queue
    ∧ StronglySorted
        (λ a b, max_new_tokens (sampling_params a) >= max_new_tokens (sampling_params b))
        out
    ∧ ∀ k, filter (λ r, max_new_tokens (sampling_params r) = k) out
           = filter (λ r, max_new_tokens (sampling_params r) = k) waiting_queue.
Proof.
  intros Hpol. destruct self as [pol c]. simpl in Hpol. subst pol.
  exists (sort_by_key (λ x, - max_new_tokens (sampling_params x)) waiting_queue).
  split; [|split; [|split]].
  - reflexivity.
  - apply sort_by_key_perm.
  - eapply StronglySorted_weaken; [|apply sort_by_key_sorted].
    simpl. intros a b. lia.
  - intros k.
    rewrite (list_filter_iff _ (λ r, - max_new_tokens (sampling_params r) = - k)
               (sort_by_key _ waiting_queue)) by (intros r; lia).
    rewrite (list_filter_iff _ (λ r, - max_new_tokens (sampling_params r) = - k)
               waiting_queue) by (intros r; lia).
    apply (sort_by_key_stable (λ x, - max_new_tokens (sampling_params x))).
Qed.

(** X6: under "dfs-weight", with a tree of distinct nodes, the queue
    returned holds exactly the matched requests whose [last_node] is a
    node of the tree, each once; a request matched at a node that is not
    below the root is dropped.  When every request is matched inside the
    tree the queue is only reordered. *)
Theorem dfs_weight_keeps_requests (self : PolicyScheduler C) waiting_queue q c :
  policy self = "dfs-weight" →
  match_all adjust_max_prefix_ids waiting_queue (ps_tree_cache self) = (q, c) →
  NoDup (node_ids (root_node c)) →
  (calc_priority adjust_max_prefix_ids shuffle self waiting_queue).1.2
  ≡ₚ filter (λ r, last_node r ∈ node_ids (root_node c)) q
  ∧ ((∀ r, r ∈ q → last_node r ∈ node_ids (root_node c)) →
     (calc_priority adjust_max_prefix_ids shuffle self waiting_queue).1.2 ≡ₚ q).
Proof.
  intros Hpol Hmatch Hnd.
  assert (Hout : (calc_priority adjust_max_prefix_ids shuffle self waiting_queue).1.2
                 = walk_from (dfs_node_to_weight (root_node c) q)
                     (dfs_last_node_to_reqs q) (root_node c)).
  { unfold calc_priority. rewrite Hpol, Hmatch. reflexivity. }
  assert (Hperm : (calc_priority adjust_max_prefix_ids shuffle self waiting_queue).1.2
                  ≡ₚ filter (λ r, last_node r ∈ node_ids (root_node c)) q).
  { rewrite Hout, walk_from_perm, <- (matched_at_collect q _ Hnd).
    assert (map (rget (dfs_last_node_to_reqs q)) (node_ids (root_node c))
            = map (matched_at q) (node_ids (root_node c))) as ->; [|done].
    apply map_ext. intros i. apply dfs_last_node_to_reqs_spec. }
  split; [exact Hperm|].
  intros Hall. rewrite Hperm. by rewrite filter_all.
Qed.
End Orderer_more.

(** * Properties of the PrefillAdder *)

Section Adder_facts.
Context {C : Type} `{BasePrefixCache C}.

(** The value of [CLIP_MAX_NEW_TOKENS] and the function
    [adjust_max_prefix_ids]. *)
Variable clip : Z.
Variable adjust : Req → list Z.

Implicit Type self : PrefillAdder C.

(** ** The parts of a call *)

(** The re-match: what [_lock_req] does before the body runs. *)
Lemma lock_req_enter_spec req self req1 self1 :
  _lock_req_enter adjust req self = (req1, self1) →
  same_budgets self self1
  ∧ fill_ids req1 = origin_input_ids req ++ output_ids req
  ∧ extend_input_len req1 = len (fill_ids req1) - len (prefix_indices req1)
  ∧ sampling_params req1 = sampling_params req
  ∧ return_logprob req1 = return_logprob req
  ∧ normalized_prompt_logprob req1 = normalized_prompt_logprob req
  ∧ ∃ delta,
      rem_total_tokens self1 = rem_total_tokens self + delta
      ∧ tc_calls (tree_cache self1)
        = tc_calls (tree_cache self) ++ [CallMatchPrefixLock (last_node req1) delta].
Proof.
  unfold _lock_req_enter, tc_match_prefix_lock. simpl.
  destruct (match_prefix_lock _ _ _) as [[[indices node] delta] c].
  intros [= <- <-]. simpl. repeat split. by exists delta.
Qed.

(** The release: what the [finally] part of [_lock_req] does. *)
Lemma lock_req_exit_spec req self :
  same_budgets self (_lock_req_exit req self)
  ∧ ∃ delta,
      rem_total_tokens (_lock_req_exit req self) = rem_total_tokens self + delta
      ∧ tc_calls (tree_cache (_lock_req_exit req self))
        = tc_calls (tree_cache self) ++ [CallDecLockRef (last_node req) delta].
Proof.
  unfold _lock_req_exit, tc_dec_lock_ref.
  destruct (dec_lock_ref _ _) as [delta c]. simpl.
  repeat split. by exists delta.
Qed.

Lemma add_one_req_site_unfold req self req1 self1 :
  _lock_req_enter adjust req self = (req1, self1) →
  add_one_req_site clip adjust req self
  = ((add_one_req_body clip req1 self1).1.1,
     (add_one_req_body clip req1 self1).1.2,
     _lock_req_exit (add_one_req_body clip req1 self1).1.2
       (add_one_req_body clip req1 self1).2).
Proof.
  intros He. unfold add_one_req_site, _lock_req. rewrite He.
  by destruct (add_one_req_body clip req1 self1) as [[s r] a].
Qed.

Lemma add_one_req_unfold req self :
  add_one_req clip adjust req self
  = (site_value (add_one_req_site clip adjust req self).1.1,
     (add_one_req_site clip adjust req self).1.2,
     (add_one_req_site clip adjust req self).2).
Proof.
  unfold add_one_req. by destruct (add_one_req_site clip adjust req self) as [[s r] a].
Qed.

Lemma len_eqb_0 {A : Type} (l : list A) : (len l =? 0) = true ↔ l = [].
Proof. unfold len. by destruct l. Qed.

(** The body takes one of the five paths. *)
Lemma add_one_req_body_path req self :
  body_path clip req self
    (add_one_req_body clip req self).1.1
    (add_one_req_body clip req self).1.2
    (add_one_req_body clip req self).2.
Proof.
  unfold add_one_req_body. fold (needs_prompt_logprob req).
  fold (clipped_new_tokens clip req).
  destruct (Z.leb_spec (rem_total_tokens self)
              (extend_input_len req + clipped_new_tokens clip req))
    as [Ht|Ht]; [by apply path_total|].
  assert (Hin : ((rem_input_tokens self <? extend_input_len req)
                 && negb (len (can_run_list self) =? 0) = true
                 ∧ rem_input_tokens self < extend_input_len req
                 ∧ can_run_list self ≠ [])
                ∨ ((rem_input_tokens self <? extend_input_len req)
                   && negb (len (can_run_list self) =? 0) = false
                   ∧ (extend_input_len req <= rem_input_tokens self
                      ∨ can_run_list self = []))).
  { destruct (Z.ltb_spec (rem_input_tokens self) (extend_input_len req));
      destruct (len (can_run_list self) =? 0) eqn:El; simpl.
    - right. split; [done|]. right. by apply len_eqb_0.
    - left. repeat split; [done|]. intros Hn. apply len_eqb_0 in Hn. congruence.
    - right. split; [done|]. by left.
    - right. split; [done|]. by left. }
  destruct Hin as [(-> & Hlt & Hne) | (-> & Hok)]; [by apply path_input|].
  unfold tc_inc_lock_ref, _prefill_one_req.
  destruct (rem_chunk_tokens self) as [chunk|] eqn:Hc.
  - destruct (Z.leb_spec (extend_input_len req) chunk) as [Hle|Hgt]; simpl.
    { destruct (inc_lock_ref _ _) as [d c]. simpl. rewrite Hc. simpl.
      apply path_non_chunked; try done.
      - right. left. eauto.
      - unfold admitted. simpl. rewrite Hc. repeat split. by exists d. }
    destruct (needs_prompt_logprob req) eqn:Hn.
    { destruct (inc_lock_ref _ _) as [d c]. simpl. rewrite Hc. simpl.
      apply path_non_chunked; try done.
      - by right; right.
      - unfold admitted. simpl. rewrite Hc. repeat split. by exists d. }
    destruct (Z.eqb_spec chunk 0) as [->|Hnz]; simpl.
    { by apply path_chunk_zero. }
    destruct (inc_lock_ref _ _) as [d c]. simpl. rewrite Hc. simpl.
    apply (path_chunked clip req self chunk); try done.
    unfold admitted. simpl. rewrite Hc. repeat split. by exists d.
  - destruct (inc_lock_ref _ _) as [d c]. simpl. rewrite Hc. simpl.
    apply path_non_chunked; try done.
    + by left.
    + unfold admitted. simpl. rewrite Hc. repeat split. by exists d.
Qed.

(** A call of [add_one_req] is the re-match, one path through the body,
    and the release. *)
Lemma add_one_req_path req self req1 self1 :
  _lock_req_enter adjust req self = (req1, self1) →
  ∃ s req2 self2,
    body_path clip req1 self1 s req2 self2
    ∧ last_node req2 = last_node req1
    ∧ prefix_indices req2 = prefix_indices req1
    ∧ add_one_req_site clip adjust req self = (s, req2, _lock_req_exit req2 self2)
    ∧ add_one_req clip adjust req self
      = (site_value s, req2, _lock_req_exit req2 self2).
Proof.
  intros He.
  exists (add_one_req_body clip req1 self1).1.1,
         (add_one_req_body clip req1 self1).1.2,
         (add_one_req_body clip req1 self1).2.
  pose proof (add_one_req_body_path req1 self1) as Hp.
  split; [done|].
  split; [by destruct Hp|]. split; [by destruct Hp|]. split.
  - by apply add_one_req_site_unfold.
  - by rewrite add_one_req_unfold, (add_one_req_site_unfold _ _ _ _ He).
Qed.

(** The path of a call that reaches the chunk decision with a request
    that does not fit the chunk budget. *)
Lemma chunk_decision_path req self req1 self1 chunk :
  _lock_req_enter adjust req self = (req1, self1) →
  extend_input_len req1 + clipped_new_tokens clip req1 < rem_total_tokens self1 →
  (extend_input_len req1 <= rem_input_tokens self ∨ can_run_list self = []) →
  rem_chunk_tokens self = Some chunk →
  chunk < extend_input_len req1 →
  needs_prompt_logprob req1 = false →
  (chunk = 0
   ∧ add_one_req clip adjust req self = (false, req1, _lock_req_exit req1 self1))
  ∨ (chunk ≠ 0
     ∧ ∃ self2,
         add_one_req clip adjust req self
         = (true, chunk_of chunk req1, _lock_req_exit (chunk_of chunk req1) self2)
         ∧ admitted self1 self2 (chunk_of chunk req1) (len (prefix_indices req1)) chunk 0
         ∧ new_inflight_req self2 = Some (chunk_of chunk req1)).
Proof.
  intros He Ht Hin Hc Hlt Hn.
  destruct (lock_req_enter_spec _ _ _ _ He) as ((Ei & Ec & El & _) & _).
  destruct (add_one_req_path _ _ _ _ He) as (s & req2 & self2 & Hp & _ & _ & _ & ->).
  rewrite <- Ei, <- El in Hin. rewrite <- Ec in Hc.
  destruct Hp as [ Ht' | _ Hlt' Hne | self2 _ _ [Hnone|[(c & Hc' & Hle)|Hn']] _ _
                 | _ _ Hz _ _
                 | c self2 _ _ Hc' _ _ Hnz Hadm Hinfl ].
  - lia.
  - destruct Hin; [lia | done].
  - congruence.
  - rewrite Hc in Hc'. injection Hc' as <-. lia.
  - congruence.
  - rewrite Hc in Hz. injection Hz as ->. by left.
  - rewrite Hc in Hc'. injection Hc' as <-. right. split; [done|]. by exists self2.
Qed.

(** The cache calls of one [add_one_req]: the lock of the re-match, the
    extra lock of an admission, and the release, all on one node. *)
Lemma add_one_req_calls req self req1 self1 :
  _lock_req_enter adjust req self = (req1, self1) →
  ∃ s req2 self2 d_acq mid d_rel,
    body_path clip req1 self1 s req2 self2
    ∧ add_one_req clip adjust req self = (site_value s, req2, _lock_req_exit req2 self2)
    ∧ rem_total_tokens self1 = rem_total_tokens self + d_acq
    ∧ rem_total_tokens (_lock_req_exit req2 self2) = rem_total_tokens self2 + d_rel
    ∧ (site_value s = false → mid = [] ∧ self2 = self1)
    ∧ (site_value s = true → ∃ d_inc, mid = [CallIncLockRef (last_node req2) d_inc])
    ∧ tc_calls (tree_cache (_lock_req_exit req2 self2))
      = tc_calls (tree_cache self)
        ++ CallMatchPrefixLock (last_node req2) d_acq
           :: mid ++ [CallDecLockRef (last_node req2) d_rel].
Proof.
  intros He.
  destruct (lock_req_enter_spec _ _ _ _ He)
    as (_ & _ & _ & _ & _ & _ & d_acq & Et & Ecalls).
  destruct (add_one_req_path _ _ _ _ He)
    as (s & req2 & self2 & Hp & Hln & _ & _ & Ha).
  destruct (lock_req_exit_spec req2 self2) as (_ & d_rel & Xt & Xcalls).
  assert (Hmid : ∃ mid,
             tc_calls (tree_cache self2) = tc_calls (tree_cache self1) ++ mid
             ∧ (site_value s = false → mid = [] ∧ self2 = self1)
             ∧ (site_value s = true →
                ∃ d_inc, mid = [CallIncLockRef (last_node req2) d_inc])).
  { destruct Hp as [ | | s2 _ _ _ (_&_&_&_&_&_& d & Hd) _ | |
                     c s2 _ _ _ _ _ _ (_&_&_&_&_&_& d & Hd) _ ]; simpl.
    - exists []. by rewrite app_nil_r.
    - exists []. by rewrite app_nil_r.
    - exists [CallIncLockRef (last_node req1) d].
      split; [done|]. split; [done|]. intros _. by exists d.
    - exists []. by rewrite app_nil_r.
    - exists [CallIncLockRef (last_node (chunk_of c req1)) d].
      split; [done|]. split; [done|]. intros _. by exists d. }
  destruct Hmid as (mid & Hcalls & Hrej & Hadm).
  exists s, req2, self2, d_acq, mid, d_rel.
  repeat split; try done; try (by apply Hrej).
  rewrite Xcalls, Hcalls, Ecalls, Hln. by rewrite <- !app_assoc.
Qed.





(** A slice with a stop that is not negative is the first [stop]
    elements; with a negative stop it leaves off the last [-stop]. *)
Lemma slice_to_nonneg {A : Type} (l : list A) (stop : Z) :
  0 <= stop → slice_to l stop = take (Z.to_nat stop) l.
Proof.
  intros Hs. unfold slice_to, len.
  destruct (Z.ltb_spec stop 0) as [|_]; [lia|].
  destruct (Z.le_gt_cases stop (Z.of_nat (length l))) as [Hle|Hgt].
  - f_equal. lia.
  - rewrite !take_ge by lia. done.
Qed.

Lemma slice_to_neg {A : Type} (l : list A) (stop : Z) :
  stop < 0 → slice_to l stop = take (Z.to_nat (len l + stop)) l.
Proof.
  intros Hs. unfold slice_to, len.
  destruct (Z.ltb_spec stop 0) as [_|]; [|lia]. f_equal. lia.
Qed.

(** ** The claims *)

(** C1: when [total_tokens], computed after the re-match, is at least the
    [rem_total_tokens] the adder has at that point, [add_one_req] returns
    [False] (through line 214), [can_run_list] and every counter that
    [_prefill_one_req] debits are as before the call, and the total budget
    has only moved by the delta of the release; the cache saw the lock
    and its release and no other call. *)
Theorem add_one_req_rejects_on_total req self req1 self1 :
  _lock_req_enter adjust req self = (req1, self1) →
  extend_input_len req1 + clipped_new_tokens clip req1 >= rem_total_tokens self1 →
  ∃ self' delta,
    add_one_req clip adjust req self = (false, req1, self')
    ∧ add_one_req_site clip adjust req self = (Return214, req1, self')
    ∧ same_budgets self self'
    ∧ rem_total_tokens self' = rem_total_tokens self1 + delta
    ∧ tc_calls (tree_cache self')
      = tc_calls (tree_cache self1) ++ [CallDecLockRef (last_node req1) delta].
Proof.
  intros He Hge.
  destruct (lock_req_enter_spec _ _ _ _ He) as ((Ei & Ec & El & Ef & Eh & Eg) & _).
  destruct (add_one_req_path _ _ _ _ He) as (s & req2 & self2 & Hp & _ & _ & -> & ->).
  destruct Hp; try lia.
  destruct (lock_req_exit_spec req1 self1)
    as ((Xi & Xc & Xl & Xf & Xh & Xg) & delta & Xt & Xcalls).
  exists (_lock_req_exit req1 self1), delta.
  repeat split; try done; congruence.
Qed.



(** C4: the input budget alone never rejects the first candidate.  With
    an empty [can_run_list] the call does not leave through the input
    check of line 217, and its result is the same whatever
    [rem_input_tokens] is; a call that does leave through line 217 found
    [can_run_list] non-empty and [input_tokens] above the input budget. *)
Theorem input_budget_never_rejects_first req self :
  (can_run_list self = [] →
   (add_one_req_site clip adjust req self).1.1 ≠ Return217)
  ∧ ((add_one_req_site clip adjust req self).1.1 = Return217 →
     can_run_list self ≠ []
     ∧ rem_input_tokens self
       < extend_input_len (add_one_req_site clip adjust req self).1.2)
  ∧ (can_run_list self = [] →
     ∀ v, (add_one_req clip adjust req (set_rem_input_tokens v self)).1.1
          = (add_one_req clip adjust req self).1.1).
Proof.
  destruct (_lock_req_enter adjust req self) as [req1 self1] eqn:He.
  destruct (lock_req_enter_spec _ _ _ _ He) as ((Ei & Ec & El & Ef & Eh & Eg) & _).
  destruct (add_one_req_path _ _ _ _ He) as (s & req2 & self2 & Hp & _ & _ & Hs & _).
  rewrite Hs. simpl.
  split; [|split].
  - intros Hnil. destruct Hp; try done. congruence.
  - intros ->. inversion Hp; subst. split; congruence.
  - intros Hnil v.
    rewrite !add_one_req_unfold. simpl. f_equal.
    unfold add_one_req_site, _lock_req, _lock_req_enter, tc_match_prefix_lock.
    simpl.
    destruct (match_prefix_lock _ _ _) as [[[indices node] delta] c]. simpl.
    unfold add_one_req_body, tc_inc_lock_ref. simpl. rewrite Hnil. simpl.
    rewrite !andb_false_r.
    repeat (case_match; simpl in *; simplify_eq; try done).
Qed.

(** C6: with a chunk budget [chunk], [add_inflight_req] clips
    [extend_input_len] to [min(extend_input_len, chunk)], cuts [fill_ids]
    at the prefix length plus that amount, appends the request to
    [can_run_list] whatever the budgets are, debits the budgets with the
    clipped generation reservation exactly when the incoming
    [extend_input_len] was at most [chunk] and with 0 otherwise, and
    returns the request when it was truncated and [None] when not.  The
    request appended and handed back is the request offered with these
    two fields changed and no other: [fill_ids] holds its first
    [prefix_len + min(extend_input_len, chunk)] tokens (for a negative
    stop, all but the last tokens counted by the stop). *)
Theorem add_inflight_req_spec req self chunk :
  rem_chunk_tokens self = Some chunk →
  ∃ req' self',
    add_inflight_req clip req self
    = (Return (if extend_input_len req <=? chunk then None else Some req'), req', self')
    ∧ extend_input_len req' = Z.min (extend_input_len req) chunk
    ∧ fill_ids req' = slice_to (fill_ids req)
                        (len (prefix_indices req) + Z.min (extend_input_len req) chunk)
    ∧ can_run_list self' = can_run_list self ++ [req']
    ∧ rem_total_tokens self'
      = rem_total_tokens self
        - (Z.min (extend_input_len req) chunk
           + if extend_input_len req <=? chunk then clipped_new_tokens clip req else 0)
    ∧ rem_input_tokens self' = rem_input_tokens self - Z.min (extend_input_len req) chunk
    ∧ rem_chunk_tokens self' = Some (chunk - Z.min (extend_input_len req) chunk)
    ∧ log_hit_tokens self' = log_hit_tokens self + len (prefix_indices req)
    ∧ log_input_tokens self' = log_input_tokens self + Z.min (extend_input_len req) chunk
    ∧ new_inflight_req self' = new_inflight_req self
    ∧ tree_cache self' = tree_cache self
    ∧ req'
      = mkReq (rid req) (origin_input_ids req) (output_ids req) (fill_ids req')
          (prefix_indices req) (last_node req) (Z.min (extend_input_len req) chunk)
          (sampling_params req) (return_logprob req) (normalized_prompt_logprob req)
    ∧ (0 <= len (prefix_indices req) + Z.min (extend_input_len req) chunk →
       fill_ids req'
       = take (Z.to_nat (len (prefix_indices req) + Z.min (extend_input_len req) chunk))
           (fill_ids req))
    ∧ (len (prefix_indices req) + Z.min (extend_input_len req) chunk < 0 →
       fill_ids req'
       = take (Z.to_nat (len (fill_ids req)
                         + (len (prefix_indices req)
                            + Z.min (extend_input_len req) chunk)))
           (fill_ids req)).
Proof.
  intros Hc. unfold add_inflight_req, _prefill_one_req, clipped_new_tokens.
  rewrite Hc. simpl. rewrite Hc. simpl.
  destruct (Z.ltb_spec chunk (extend_input_len req)) as [Hlt|Hge];
    destruct (Z.leb_spec (extend_input_len req) chunk) as [Hle|Hgt];
    try lia; simpl;
    eexists _, _; (split; [reflexivity|]); simpl;
    repeat (split; [done|]); (split; [intros Hs; by apply slice_to_nonneg|]);
    intros Hs; by apply slice_to_neg.
Qed.

(** C7: [no_remaining_tokens] is true exactly when the total budget is
    at most 0, or the input budget is at most 0, or a chunk budget is
    set and at most 0; it is false exactly when none of the three holds,
    so an unset chunk budget never exhausts the adder. *)
Theorem no_remaining_tokens_iff self :
  let exhausted :=
    rem_total_tokens self <= 0
    ∨ rem_input_tokens self <= 0
    ∨ ∃ chunk, rem_chunk_tokens self = Some chunk ∧ chunk <= 0 in
  (no_remaining_tokens self = true ↔ exhausted)
  ∧ (no_remaining_tokens self = false ↔ ¬ exhausted).
Proof.
  unfold no_remaining_tokens.
  destruct (Z.leb_spec (rem_total_tokens self) 0);
    destruct (Z.leb_spec (rem_input_tokens self) 0);
    destruct (rem_chunk_tokens self) as [chunk|]; simpl;
    try destruct (Z.leb_spec chunk 0); simpl;
    (split; split; [ intros ?; try discriminate; eauto 6
                   | intros [?|[?|(?&[=]&?)]]; subst; (done || lia)
                   | intros ? [?|[?|(?&[=]&?)]]; subst; (done || lia)
                   | intros Hn; try done; exfalso; apply Hn; eauto 6 ]).
Qed.

(** C8, as the code has it: the deltas returned by [match_prefix_lock]
    and by [dec_lock_ref] are added to [rem_total_tokens]; the delta
    returned by the [inc_lock_ref] of an admission is dropped.  After a
    call, [rem_total_tokens] is its old value, plus the deltas of the new
    calls other than [inc_lock_ref], minus what [_prefill_one_req]
    debited; and an admitting call did call [inc_lock_ref]. *)
Theorem lock_deltas_applied req self :
  ∃ new_calls,
    tc_calls (tree_cache (add_one_req clip adjust req self).2)
    = tc_calls (tree_cache self) ++ new_calls
    ∧ rem_total_tokens (add_one_req clip adjust req self).2
      = rem_total_tokens self
        + sum_applied_deltas new_calls
        - prefill_debit clip (add_one_req clip adjust req self).1.1
            (on_chunk_path self (_lock_req_enter adjust req self).1)
            (add_one_req clip adjust req self).1.2
    ∧ ((add_one_req clip adjust req self).1.1 = true →
       ∃ delta,
         CallIncLockRef (last_node (add_one_req clip adjust req self).1.2) delta
         ∈ new_calls).
Proof.
  destruct (_lock_req_enter adjust req self) as [req1 self1] eqn:He.
  destruct (lock_req_enter_spec _ _ _ _ He) as ((_ & Ec & _) & _).
  destruct (add_one_req_calls _ _ _ _ He)
    as (s & req2 & self2 & d_acq & mid & d_rel
        & Hp & -> & Et & Xt & Hrej & Hadm & Hcalls).
  simpl. eexists. split; [exact Hcalls|].
  rewrite Xt. unfold on_chunk_path, prefill_debit. rewrite <- Ec.
  destruct Hp as [ | | s2 _ _ Hwhy (_ & At & _) _ | |
                   c s2 _ _ Hc Hlt Hn _ (_ & At & _) _ ]; simpl in *.
  - destruct Hrej as [-> _]; [done|]. simpl. split; [lia|done].
  - destruct Hrej as [-> _]; [done|]. simpl. split; [lia|done].
  - destruct Hadm as [d ->]; [done|]. simpl. split.
    + assert (Hch : match rem_chunk_tokens self1 with
                    | None => false
                    | Some chunk =>
                      (chunk <? extend_input_len req1)
                      && negb (needs_prompt_logprob req1)
                    end = false).
      { destruct Hwhy as [->|[(chunk & -> & Hle)|Hn]]; [done| |].
        - destruct (Z.ltb_spec chunk (extend_input_len req1)); [lia|done].
        - destruct (rem_chunk_tokens self1); [|done].
          rewrite Hn. simpl. apply andb_false_r. }
      rewrite Hch. lia.
    + intros _. exists d. apply list_elem_of_further, list_elem_of_here.
  - destruct Hrej as [-> _]; [done|]. simpl. split; [lia|done].
  - destruct Hadm as [d ->]; [done|]. simpl. split.
    + rewrite Hc, Hn. destruct (Z.ltb_spec c (extend_input_len req1)); [|lia].
      simpl. lia.
    + intros _. exists d. apply list_elem_of_further, list_elem_of_here.
Qed.

(** C9: [add_inflight_req] needs a chunk budget.  With
    [rem_chunk_tokens] unset the first comparison raises [TypeError] and
    neither the request nor the adder has changed; with a chunk budget
    set the call returns normally. *)
Theorem add_inflight_req_needs_chunk_budget req self :
  (rem_chunk_tokens self = None →
   add_inflight_req clip req self = (Raises TypeError, req, self))
  ∧ (∀ chunk, rem_chunk_tokens self = Some chunk →
     ∃ r, (add_inflight_req clip req self).1.1 = Return r).
Proof.
  unfold add_inflight_req. split.
  - by intros ->.
  - intros chunk ->. simpl. eauto.
Qed.

(** C10, as the code has it: on the chunked path a negative chunk
    budget is not rejected.  The request is admitted with
    [extend_input_len] set to the negative budget and [fill_ids] set to
    the slice [fill_ids[: prefix_len + chunk]].  That slice is shorter
    than the matched prefix when [prefix_len + chunk >= 0]; when
    [prefix_len + chunk < 0] the stop counts from the end of [fill_ids],
    and the slice keeps [len(fill_ids) + prefix_len + chunk] tokens (none
    if that is negative). *)
Theorem add_one_req_negative_chunk req self req1 self1 chunk :
  _lock_req_enter adjust req self = (req1, self1) →
  extend_input_len req1 + clipped_new_tokens clip req1 < rem_total_tokens self1 →
  (extend_input_len req1 <= rem_input_tokens self ∨ can_run_list self = []) →
  rem_chunk_tokens self = Some chunk →
  chunk < extend_input_len req1 →
  needs_prompt_logprob req1 = false →
  chunk < 0 →
  ∃ req' self',
    add_one_req clip adjust req self = (true, req', self')
    ∧ can_run_list self' = can_run_list self ++ [req']
    ∧ extend_input_len req' = chunk
    ∧ prefix_indices req' = prefix_indices req1
    ∧ fill_ids req' = slice_to (fill_ids req1) (len (prefix_indices req1) + chunk)
    ∧ (0 <= len (prefix_indices req1) + chunk →
       len (fill_ids req') < len (prefix_indices req'))
    ∧ (len (prefix_indices req1) + chunk < 0 →
       len (fill_ids req')
       = Z.max 0 (len (fill_ids req1) + len (prefix_indices req1) + chunk)).
Proof.
  intros He Ht Hin Hc Hlt Hn Hneg.
  destruct (lock_req_enter_spec _ _ _ _ He) as ((_ & _ & El & _) & _).
  destruct (chunk_decision_path _ _ _ _ _ He Ht Hin Hc Hlt Hn)
    as [(-> & _) | (_ & self2 & -> & (Al & _) & _)]; [lia|].
  destruct (lock_req_exit_spec (chunk_of chunk req1) self2) as ((_ & _ & Xl & _) & _).
  exists (chunk_of chunk req1), (_lock_req_exit (chunk_of chunk req1) self2).
  split; [done|]. split; [congruence|]. repeat (split; [done|]).
  simpl. unfold slice_to, len.
  destruct (Z.ltb_spec (Z.of_nat (length (prefix_indices req1)) + chunk) 0);
    split; intros Hp; try lia; rewrite length_take; lia.
Qed.
(** ** Further properties *)

(** Every call of [add_one_req] ends in one of three ways: rejected,
    admitted whole, or admitted as a chunk. *)
Lemma add_one_req_outcome req self req1 self1 :
  _lock_req_enter adjust req self = (req1, self1) →
  ∃ ret req' self' d_acq d_rel,
    add_one_req clip adjust req self = (ret, req', self')
    ∧ rem_total_tokens self1 = rem_total_tokens self + d_acq
    ∧ ((ret = false
        ∧ req' = req1
        ∧ same_budgets self self'
        ∧ rem_total_tokens self' = rem_total_tokens self1 + d_rel
        ∧ tc_calls (tree_cache self')
          = tc_calls (tree_cache self)
            ++ [CallMatchPrefixLock (last_node req1) d_acq;
                CallDecLockRef (last_node req1) d_rel])
       ∨ (ret = true
          ∧ extend_input_len req1 + clipped_new_tokens clip req1 < rem_total_tokens self1
          ∧ ∃ ext gen d_inc,
              admitted_from self self1 self' req1 req' ext gen d_rel
              ∧ tc_calls (tree_cache self')
                = tc_calls (tree_cache self)
                  ++ [CallMatchPrefixLock (last_node req1) d_acq;
                      CallIncLockRef (last_node req1) d_inc;
                      CallDecLockRef (last_node req1) d_rel]
              ∧ ((req' = req1
                  ∧ ext = extend_input_len req1
                  ∧ gen = clipped_new_tokens clip req1
                  ∧ new_inflight_req self' = new_inflight_req self
                  ∧ on_chunk_path self req1 = false)
                 ∨ (∃ chunk,
                      rem_chunk_tokens self = Some chunk
                      ∧ chunk ≠ 0
                      ∧ chunk < extend_input_len req1
                      ∧ req' = chunk_of chunk req1
                      ∧ ext = chunk
                      ∧ gen = 0
                      ∧ new_inflight_req self' = Some req'
                      ∧ on_chunk_path self req1 = true)))).
Proof.
  intros He.
  destruct (lock_req_enter_spec _ _ _ _ He) as ((Ei & Ec & El & Ef & Eh & Eg) & _).
  destruct (add_one_req_calls _ _ _ _ He)
    as (s & req2 & self2 & d_acq & mid & d_rel
        & Hp & Hadd & Et & Xt & Hrej & Hadm & Hcalls).
  destruct (lock_req_exit_spec req2 self2) as ((Xi & Xc & Xl & Xf & Xh & Xg) & _).
  exists (site_value s), req2, (_lock_req_exit req2 self2), d_acq, d_rel.
  split; [exact Hadd|]. split; [exact Et|].
  unfold on_chunk_path. rewrite <- Ec.
  destruct Hp as [ | | s2 Ht _ Hwhy (Al & At & Ai & Ac & Ah & Ag & _) Af | |
                   c s2 Ht _ Hc Hlt Hn Hnz (Al & At & Ai & Ac & Ah & Ag & _) Af ];
    simpl in *.
  - left. destruct Hrej as [-> _]; [done|].
    repeat split; try done; congruence.
  - left. destruct Hrej as [-> _]; [done|].
    repeat split; try done; congruence.
  - right. destruct Hadm as [d_inc ->]; [done|].
    split; [done|]. split; [done|].
    exists (extend_input_len req1), (clipped_new_tokens clip req1), d_inc.
    split; [unfold admitted_from; repeat split; try congruence; lia|].
    split; [done|]. left. repeat split; try congruence.
    destruct Hwhy as [->|[(chunk & -> & Hle)|Hn]]; [done| |].
    + destruct (Z.ltb_spec chunk (extend_input_len req1)); [lia|done].
    + destruct (rem_chunk_tokens self1); [|done].
      rewrite Hn. simpl. apply andb_false_r.
  - left. destruct Hrej as [-> _]; [done|].
    repeat split; try done; congruence.
  - right. destruct Hadm as [d_inc ->]; [done|].
    split; [done|]. split; [done|].
    exists c, 0, d_inc.
    split; [unfold admitted_from; repeat split; try congruence; lia|].
    split; [done|]. right. exists c.
    repeat split; try congruence.
    rewrite Hc, Hn. by destruct (Z.ltb_spec c (extend_input_len req1)); [|lia].
Qed.

Lemma no_remaining_tokens_chunk_0 self :
  rem_chunk_tokens self = Some 0 → no_remaining_tokens self = true.
Proof.
  intros Hc. unfold no_remaining_tokens. rewrite Hc. simpl. apply orb_true_r.
Qed.

(** X9: the exact condition of admission.  [add_one_req] returns [True]
    if and only if [total_tokens] is below the total budget left after the
    re-match, the input budget covers [input_tokens] or nothing has been
    admitted yet, and the call does not end in the chunked branch with a
    chunk budget of 0. *)
Theorem add_one_req_admits_iff req self req1 self1 :
  _lock_req_enter adjust req self = (req1, self1) →
  (add_one_req clip adjust req self).1.1 = true
  ↔ extend_input_len req1 + clipped_new_tokens clip req1 < rem_total_tokens self1
    ∧ (extend_input_len req1 <= rem_input_tokens self ∨ can_run_list self = [])
    ∧ ¬ (rem_chunk_tokens self = Some 0
         ∧ 0 < extend_input_len req1
         ∧ needs_prompt_logprob req1 = false).
Proof.
  intros He.
  destruct (lock_req_enter_spec _ _ _ _ He) as ((Ei & Ec & El & _) & _).
  destruct (add_one_req_path _ _ _ _ He) as (s & req2 & self2 & Hp & _ & _ & _ & ->).
  rewrite <- Ei, <- Ec, <- El. simpl.
  destruct Hp as [ Ht | Ht Hlt Hne | s2 Ht Hin Hwhy _ _ | Ht Hin Hz Hpos Hn |
                   c s2 Ht Hin Hc Hlt Hn Hnz _ _ ]; simpl.
  - split; [done|]. intros (? & _). lia.
  - split; [done|]. intros (_ & [?|?] & _); [lia|done].
  - split; [|done]. intros _. repeat split; try done.
    intros (Hz & Hpos & Hn).
    destruct Hwhy as [?|[(chunk & ? & ?)|?]]; [congruence| |congruence].
    assert (chunk = 0) by congruence. lia.
  - split; [done|]. intros (_ & _ & Hno). by destruct Hno.
  - split; [|done]. intros _. repeat split; try done.
    intros (Hz & _). congruence.
Qed.


(** X11: a call that returns [False] has no effect beyond the temporary
    lock.  The request handed back is the re-matched one, the lists and
    all budgets but the total are as before, the total budget has moved
    by the two lock deltas only, and the cache saw the lock and its
    release and no permanent lock. *)
Theorem add_one_req_rejection_is_clean req self :
  (add_one_req clip adjust req self).1.1 = false →
  (add_one_req clip adjust req self).1.2 = (_lock_req_enter adjust req self).1
  ∧ same_budgets self (add_one_req clip adjust req self).2
  ∧ ∃ d_acq d_rel,
      rem_total_tokens (add_one_req clip adjust req self).2
      = rem_total_tokens self + d_acq + d_rel
      ∧ tc_calls (tree_cache (add_one_req clip adjust req self).2)
        = tc_calls (tree_cache self)
          ++ [CallMatchPrefixLock (last_node (add_one_req clip adjust req self).1.2) d_acq;
              CallDecLockRef (last_node (add_one_req clip adjust req self).1.2) d_rel].
Proof.
  destruct (_lock_req_enter adjust req self) as [req1 self1] eqn:He.
  destruct (add_one_req_outcome _ _ _ _ He)
    as (ret & req' & self' & d_acq & d_rel & -> & Et & Hcase).
  simpl. intros ->.
  destruct Hcase as [(_ & -> & Hsame & Ht & Hcalls) | (? & _)]; [|done].
  split; [done|]. split; [done|]. exists d_acq, d_rel. split; [lia|done].
Qed.


(** X14: a call that changes [new_inflight_req] returned [True], set it
    to the request it handed back, which is the last one of
    [can_run_list], and left the adder exhausted: [no_remaining_tokens]
    is true afterwards. *)
Theorem new_inflight_req_exhausts req self :
  new_inflight_req (add_one_req clip adjust req self).2 ≠ new_inflight_req self →
  (add_one_req clip adjust req self).1.1 = true
  ∧ new_inflight_req (add_one_req clip adjust req self).2
    = Some (add_one_req clip adjust req self).1.2
  ∧ last (can_run_list (add_one_req clip adjust req self).2)
    = Some (add_one_req clip adjust req self).1.2
  ∧ rem_chunk_tokens (add_one_req clip adjust req self).2 = Some 0
  ∧ no_remaining_tokens (add_one_req clip adjust req self).2 = true.
Proof.
  destruct (_lock_req_enter adjust req self) as [req1 self1] eqn:He.
  destruct (add_one_req_outcome _ _ _ _ He)
    as (ret & req' & self' & d_acq & d_rel & -> & Et & Hcase).
  simpl. intros Hne.
  destruct Hcase as [(_ & _ & (_ & _ & _ & Hf & _) & _)
                    | (-> & _ & ext & gen & d_inc & (Hl & _ & _ & Hc & _) & _ & Hkind)];
    [done|].
  destruct Hkind as [(_ & _ & _ & Hf & _) | (chunk & Hch & _ & _ & _ & -> & _ & Hf & _)];
    [done|].
  rewrite Hch in Hc. simpl in Hc. rewrite Z.sub_diag in Hc.
  repeat split; try done.
  - rewrite Hl. apply last_snoc.
  - by apply no_remaining_tokens_chunk_0.
Qed.

(** X15: a continued request that does not fit the chunk budget uses the
    budget up: [add_inflight_req] hands the request back, cut to [chunk]
    tokens, and the adder is exhausted afterwards. *)
Theorem add_inflight_req_truncated_exhausts req self chunk :
  rem_chunk_tokens self = Some chunk →
  chunk < extend_input_len req →
  ∃ req' self',
    add_inflight_req clip req self = (Return (Some req'), req', self')
    ∧ extend_input_len req' = chunk
    ∧ rem_chunk_tokens self' = Some 0
    ∧ no_remaining_tokens self' = true.
Proof.
  intros Hc Hlt. unfold add_inflight_req, _prefill_one_req.
  rewrite Hc. simpl. rewrite Hc. simpl.
  destruct (Z.ltb_spec chunk (extend_input_len req)) as [_|]; [|lia]. simpl.
  eexists _, _. split; [reflexivity|]. simpl.
  assert (Hmin : Z.min (extend_input_len req) chunk = chunk) by lia.
  rewrite Hmin, Z.sub_diag. repeat split.
  unfold no_remaining_tokens. simpl. apply orb_true_r.
Qed.

(** X16: an admission never overdraws the total budget.  When the
    clipped [max_new_tokens] is not negative and the call returns [True],
    the total budget, before the delta of the release is added, stays
    above 0 and has lost at most [total_tokens] since the re-match. *)
Theorem add_one_req_never_overdraws req self req1 self1 :
  _lock_req_enter adjust req self = (req1, self1) →
  0 <= clipped_new_tokens clip req1 →
  (add_one_req clip adjust req self).1.1 = true →
  ∃ calls d_rel,
    tc_calls (tree_cache (add_one_req clip adjust req self).2)
    = calls ++ [CallDecLockRef (last_node req1) d_rel]
    ∧ 0 < rem_total_tokens (add_one_req clip adjust req self).2 - d_rel
    ∧ rem_total_tokens self1 - (extend_input_len req1 + clipped_new_tokens clip req1)
      <= rem_total_tokens (add_one_req clip adjust req self).2 - d_rel.
Proof.
  intros He Hgen.
  destruct (add_one_req_outcome _ _ _ _ He)
    as (ret & req' & self' & d_acq & d_rel & -> & Et & Hcase).
  simpl. intros ->.
  destruct Hcase as [(? & _) | (_ & Ht & ext & gen & d_inc & (_ & Hr & _) & Hcalls & Hkind)];
    [done|].
  exists (tc_calls (tree_cache self)
          ++ [CallMatchPrefixLock (last_node req1) d_acq;
              CallIncLockRef (last_node req1) d_inc]), d_rel.
  split; [by rewrite Hcalls, <- app_assoc|].
  destruct Hkind as [(_ & -> & -> & _) | (chunk & _ & _ & Hlt & _ & -> & -> & _)]; lia.
Qed.

(** X17: with no chunk budget, or one that is not negative, the request
    a call hands back is consistent: [fill_ids] is as long as
    [prefix_indices] and [extend_input_len] together. *)
Theorem add_one_req_request_consistent req self :
  (∀ chunk, rem_chunk_tokens self = Some chunk → 0 <= chunk) →
  len (fill_ids (add_one_req clip adjust req self).1.2)
  = len (prefix_indices (add_one_req clip adjust req self).1.2)
    + extend_input_len (add_one_req clip adjust req self).1.2.
Proof.
  intros Hpos.
  destruct (_lock_req_enter adjust req self) as [req1 self1] eqn:He.
  destruct (lock_req_enter_spec _ _ _ _ He) as (_ & _ & Hext & _).
  destruct (add_one_req_outcome _ _ _ _ He)
    as (ret & req' & self' & d_acq & d_rel & -> & Et & Hcase).
  simpl.
  destruct Hcase as [(_ & -> & _) | (_ & _ & ext & gen & d_inc & _ & _ & Hkind)]; [lia|].
  destruct Hkind as [(-> & _) | (chunk & Hc & Hnz & Hlt & -> & _)]; [lia|].
  specialize (Hpos chunk Hc). simpl. unfold slice_to, len in *.
  destruct (Z.ltb_spec (Z.of_nat (length (prefix_indices req1)) + chunk) 0); [lia|].
  rewrite length_take. lia.
Qed.


(** X20: a new adder has admitted nothing, and it is exhausted from the
    start exactly when one of the budgets it was given does not exceed
    [mixed_with_decode_tokens]. *)
Theorem new_adder_exhausted_iff (tc : TreeCache C) total input chunk mixed :
  can_run_list (PrefillAdder_init tc total input chunk mixed) = []
  ∧ new_inflight_req (PrefillAdder_init tc total input chunk mixed) = None
  ∧ (no_remaining_tokens (PrefillAdder_init tc total input chunk mixed) = true
     ↔ total <= mixed ∨ input <= mixed ∨ ∃ c, chunk = Some c ∧ c <= mixed).
Proof.
  split; [done|]. split; [done|].
  unfold no_remaining_tokens, PrefillAdder_init. simpl.
  destruct (Z.leb_spec (total - mixed) 0);
    destruct (Z.leb_spec (input - mixed) 0);
    destruct chunk as [c|]; simpl;
    try destruct (Z.leb_spec (c - mixed) 0); simpl;
    (split; [ intros ?; try discriminate;
              first [ left; lia | right; left; lia
                    | right; right; exists c; split; [done|lia] ]
            | intros [?|[?|(?&[=]&?)]]; subst; (done || lia) ]).
Qed.

(** ** Sequences of calls *)

Lemma conserves_input_refl self : conserves_input self self.
Proof.
  unfold conserves_input. split; [done|].
  destruct (rem_chunk_tokens self) as [c|]; [|done]. by exists c.
Qed.

Lemma conserves_input_trans self1 self2 self3 :
  conserves_input self1 self2 → conserves_input self2 self3 →
  conserves_input self1 self3.
Proof.
  unfold conserves_input. intros [H12 C12] [H23 C23]. split; [lia|].
  destruct (rem_chunk_tokens self1) as [c|].
  - destruct C12 as (c' & Hc' & E12). rewrite Hc' in C23.
    destruct C23 as (c'' & Hc'' & E23). exists c''. split; [done|lia].
  - by rewrite C12 in C23.
Qed.

Lemma add_one_req_step req self :
  conserves_input self (add_one_req clip adjust req self).2
  ∧ ∃ k, can_run_list (add_one_req clip adjust req self).2 = can_run_list self ++ k.
Proof.
  destruct (_lock_req_enter adjust req self) as [req1 self1] eqn:He.
  destruct (add_one_req_outcome _ _ _ _ He)
    as (ret & req' & self' & d_acq & d_rel & -> & Et & Hcase).
  simpl.
  destruct Hcase as [(_ & _ & (Hi & Hc & Hl & _ & _ & Hg) & _)
                    | (_ & _ & ext & gen & d_inc & (Hl & _ & Hi & Hc & _ & Hg) & _)].
  - split; [|exists []; by rewrite app_nil_r].
    unfold conserves_input. rewrite Hi, Hg, Hc. split; [done|].
    destruct (rem_chunk_tokens self) as [c|]; [|done]. by exists c.
  - split; [|by exists [req']].
    unfold conserves_input. rewrite Hi, Hg, Hc. split; [lia|].
    destruct (rem_chunk_tokens self) as [c|]; [|done].
    exists (c - ext). split; [done|lia].
Qed.

Lemma add_inflight_req_step req self :
  conserves_input self (add_inflight_req clip req self).2
  ∧ ∃ k, can_run_list (add_inflight_req clip req self).2 = can_run_list self ++ k.
Proof.
  unfold add_inflight_req, _prefill_one_req, conserves_input.
  destruct (rem_chunk_tokens self) as [chunk|] eqn:Hc; simpl.
  - rewrite Hc. simpl. split; [|by eexists].
    split; [lia|]. eexists. split; [done|lia].
  - rewrite Hc. split; [done|]. exists []. by rewrite app_nil_r.
Qed.

Lemma run_calls_step calls : ∀ self,
  conserves_input self (run_calls clip adjust calls self)
  ∧ ∃ k, can_run_list (run_calls clip adjust calls self) = can_run_list self ++ k.
Proof.
  induction calls as [|[req|req] calls IH]; intros self; simpl.
  - split; [apply conserves_input_refl|]. exists []. by rewrite app_nil_r.
  - destruct (add_one_req_step req self) as [Hc (k & Hk)].
    destruct (add_one_req clip adjust req self) as [[ret req'] self']. simpl in *.
    destruct (IH self') as [Hc' (k' & Hk')]. split.
    + by eapply conserves_input_trans.
    + exists (k ++ k'). by rewrite Hk', Hk, app_assoc.
  - destruct (add_inflight_req_step req self) as [Hc (k & Hk)].
    destruct (add_inflight_req clip req self) as [[[r|e] req'] self']; simpl in *.
    + destruct (IH self') as [Hc' (k' & Hk')]. split.
      * by eapply conserves_input_trans.
      * exists (k ++ k'). by rewrite Hk', Hk, app_assoc.
    + split; [done|]. by exists k.
Qed.

(** X13: the input ledger balances over any sequence of calls.  What
    [rem_input_tokens] has lost is what [log_input_tokens] has gained,
    and the same holds for a chunk budget, which stays set if it was set
    and unset if it was unset. *)
Theorem run_calls_conserves_input calls self :
  rem_input_tokens (run_calls clip adjust calls self)
  + log_input_tokens (run_calls clip adjust calls self)
  = rem_input_tokens self + log_input_tokens self
  ∧ (rem_chunk_tokens self = None →
     rem_chunk_tokens (run_calls clip adjust calls self) = None)
  ∧ (∀ chunk, rem_chunk_tokens self = Some chunk →
     ∃ chunk',
       rem_chunk_tokens (run_calls clip adjust calls self) = Some chunk'
       ∧ chunk' + log_input_tokens (run_calls clip adjust calls self)
         = chunk + log_input_tokens self).
Proof.
  destruct (run_calls_step calls self) as [[Hi Hc] _].
  split; [exact Hi|]. split.
  - intros Hn. by rewrite Hn in Hc.
  - intros chunk Hs. by rewrite Hs in Hc.
Qed.

(** X18: no call takes a request out of [can_run_list]: after any
    sequence of calls the list starts with what it held before. *)
Theorem run_calls_keeps_admitted calls self :
  can_run_list self `prefix_of` can_run_list (run_calls clip adjust calls self).
Proof.
  destruct (run_calls_step calls self) as [_ (k & Hk)].
  exists k. exact Hk.
Qed.
End Adder_facts.

(** * The orderer on a concrete tree *)

Example demo_dfs_weight_order :
  map rid (calc_priority whole_key id
             (PolicyScheduler_init "dfs-weight" demo_cache) demo_queue).1.2
  = ["b"; "c"; "a"; "z"].
Proof. vm_compute. reflexivity. Qed.

Example demo_weights :
  map (wget (dfs_node_to_weight demo_tree demo_matched)) [0; 1; 2; 3]%nat
  = [4; 1; 2; 1].
Proof. vm_compute. reflexivity. Qed.

(** Node 2 weighs 2 and node 1 weighs 1: the requests below node 2 come
    before the request at node 1. *)
Lemma dfs_weight_order_spec_witness :
  ∃ pre mid post,
    (calc_priority whole_key id
       (PolicyScheduler_init "dfs-weight" demo_cache) demo_queue).1.2
    = pre ++ demo_walk (mkTreeNode 2 [leaf 3]) ++ mid ++ demo_walk (leaf 1) ++ post.
Proof.
  destruct (dfs_weight_order_spec whole_key id
              (PolicyScheduler_init "dfs-weight" demo_cache)
              demo_queue demo_matched demo_cache)
    as (Hcall & _ & Hsib).
  - reflexivity.
  - vm_compute. reflexivity.
  - apply (bool_decide_unpack _). vm_compute. exact I.
  - destruct (Hsib demo_tree (mkTreeNode 2 [leaf 3]) (leaf 1))
      as (pre & mid & post & Hw).
    + apply list_elem_of_here.
    + apply list_elem_of_further, list_elem_of_here.
    + apply list_elem_of_here.
    + vm_compute. reflexivity.
    + exists pre, mid, post. rewrite Hcall. exact Hw.
Defined.

(** * The adder on concrete requests *)

(** The examples of the specification: 100 new tokens and 50 tokens to
    generate against budgets of 1000, without a chunk budget and with a
    chunk budget of 60. *)
Example admit_non_chunked :
  let '(ret, req', self') :=
    add_one_req 4096 whole_key (fresh_req 100 50)
      (PrefillAdder_init (quiet_cache 0) 1000 1000 None 0) in
  (ret, extend_input_len req', rem_total_tokens self', rem_input_tokens self',
   new_inflight_req self')
  = (true, 100, 850, 900, None).
Proof. vm_compute. reflexivity. Qed.

Example admit_chunked :
  let '(ret, req', self') :=
    add_one_req 4096 whole_key (fresh_req 100 50)
      (PrefillAdder_init (quiet_cache 0) 1000 1000 (Some 60) 0) in
  (ret, extend_input_len req', rem_total_tokens self', rem_input_tokens self',
   new_inflight_req self')
  = (true, 60, 940, 940, Some req').
Proof. vm_compute. reflexivity. Qed.

(** A request of 100 tokens with 50 tokens to generate needs 150 tokens;
    an adder with 100 tokens left rejects it. *)
Lemma add_one_req_rejects_on_total_witness :
  ∃ req' self',
    add_one_req 4096 whole_key (fresh_req 100 50)
      (PrefillAdder_init (quiet_cache 0) 100 1000 None 0)
    = (false, req', self')
    ∧ can_run_list self' = []
    ∧ rem_input_tokens self' = 1000.
Proof.
  pose (req := fresh_req 100 50).
  pose (self := PrefillAdder_init (quiet_cache 0) 100 1000 None 0).
  destruct (add_one_req_rejects_on_total 4096 whole_key req self
              (_lock_req_enter whole_key req self).1
              (_lock_req_enter whole_key req self).2)
    as (self' & delta & Hadd & _ & (Hi & _ & Hl & _) & _); try (vm_compute; done).
  exists (_lock_req_enter whole_key req self).1, self'.
  split; [exact Hadd|]. by rewrite Hi, Hl.
Defined.


(** With a chunk budget of 60 the pending request is cut to 60 tokens
    and handed back, under its own name. *)
Lemma add_inflight_req_spec_witness :
  ∃ req' self',
    add_inflight_req 4096 pending_req
      (PrefillAdder_init (quiet_cache 0) 1000 1000 (Some 60) 0)
    = (Return (Some req'), req', self')
    ∧ extend_input_len req' = 60
    ∧ can_run_list self' = [req']
    ∧ rem_total_tokens self' = 1000 - 60
    ∧ rid req' = "r"
    ∧ fill_ids req' = replicate 60 7.
Proof.
  destruct (add_inflight_req_spec 4096 pending_req
              (PrefillAdder_init (quiet_cache 0) 1000 1000 (Some 60) 0) 60)
    as (req' & self' & Hadd & He & _ & Hl & Ht & _ & _ & _ & _ & _ & _
        & Hreq & Hfill & _); [done|].
  exists req', self'. split; [exact Hadd|].
  split; [by rewrite He|]. split; [exact Hl|].
  split; [by rewrite Ht|]. split; [by rewrite Hreq|].
  rewrite Hfill; [|vm_compute; discriminate]. vm_compute. reflexivity.
Defined.

(** With a chunk budget of -3 the request is admitted with
    [extend_input_len = -3], and [fill_ids[: 2 - 3]] drops only the last
    token: 49 tokens stay, which is not below the 2 tokens of the matched
    prefix. *)
Lemma negative_chunk_keeps_fill_ids_above_prefix :
  negative_chunk_call.1.1 = true
  ∧ extend_input_len negative_chunk_call.1.2 = -3
  ∧ len (prefix_indices negative_chunk_call.1.2) = 2
  ∧ len (fill_ids negative_chunk_call.1.2) = 49
  ∧ ¬ len (fill_ids negative_chunk_call.1.2) < len (prefix_indices negative_chunk_call.1.2).
Proof. vm_compute. repeat split; congruence. Qed.

Lemma add_one_req_negative_chunk_witness :
  ∃ req' self',
    negative_chunk_call = (true, req', self')
    ∧ extend_input_len req' = -3
    ∧ len (fill_ids req') = Z.max 0 (50 + 2 + -3).
Proof.
  pose (req := fresh_req 50 50).
  pose (self := PrefillAdder_init (quiet_cache 2) 1000 1000 (Some (-3)) 0).
  destruct (add_one_req_negative_chunk 4096 whole_key req self
              (_lock_req_enter whole_key req self).1
              (_lock_req_enter whole_key req self).2 (-3))
    as (req' & self' & Hadd & _ & He & _ & _ & _ & Hlen); try (vm_compute; done).
  { left. vm_compute. done. }
  exists req', self'. split; [exact Hadd|]. split; [exact He|].
  rewrite Hlen; [|vm_compute; done]. vm_compute. done.
Defined.

(** The admission debits 150 tokens.  The deltas 5 and 3 of the lock and
    of its release reach [rem_total_tokens]; the delta -7 returned by
    [inc_lock_ref] does not, so the budget is not the old one plus all
    returned deltas minus the debit. *)
Lemma inc_lock_ref_delta_dropped :
  charged_call.1.1 = true
  ∧ tc_calls (tree_cache charged_call.2)
    = [CallMatchPrefixLock 1 5; CallIncLockRef 1 (-7); CallDecLockRef 1 3]
  ∧ rem_total_tokens charged_call.2 = 1000 + 5 + 3 - 150
  ∧ rem_total_tokens charged_call.2
    ≠ 1000 + sum_deltas (tc_calls (tree_cache charged_call.2)) - 150.
Proof. vm_compute. repeat split; congruence. Qed.

(** * Further runs on concrete inputs *)

Lemma disabled_cache_is_fcfs_witness :
  calc_priority whole_key id
    (PolicyScheduler_init "lpm" (mkNoCache (leaf 0))) demo_queue
  = (Return (), demo_queue, mkPolicyScheduler "fcfs" (mkNoCache (leaf 0))).
Proof. apply disabled_cache_is_fcfs; [reflexivity | by left]. Defined.

Lemma unknown_policy_raises_witness :
  calc_priority whole_key id (mkPolicyScheduler "shortest" demo_cache) demo_queue
  = (Raises ValueError, demo_queue, mkPolicyScheduler "shortest" demo_cache).
Proof.
  apply unknown_policy_raises. simpl. intros Hin.
  repeat (apply elem_of_cons in Hin as [Hin|Hin]; [discriminate Hin|]).
  by apply elem_of_nil in Hin.
Defined.

Example demo_lpm_order :
  map rid (calc_priority whole_key id
             (PolicyScheduler_init "lpm" demo_cache) demo_queue).1.2
  = ["b"; "a"; "c"; "z"].
Proof. vm_compute. reflexivity. Qed.

Lemma lpm_order_spec_witness :
  ∃ out,
    calc_priority whole_key id (PolicyScheduler_init "lpm" demo_cache) demo_queue
    = (Return (), out, mkPolicyScheduler "lpm" demo_cache)
    ∧ out ≡ₚ demo_matched.
Proof.
  destruct (lpm_order_spec whole_key id (PolicyScheduler_init "lpm" demo_cache)
              demo_queue demo_matched demo_cache)
    as (out & Hcall & Hperm & _).
  - reflexivity.
  - vm_compute. reflexivity.
  - exists out. by split.
Defined.

Lemma lof_order_spec_witness :
  ∃ out,
    calc_priority whole_key id (mkPolicyScheduler "lof" demo_cache) demo_queue
    = (Return (), out, mkPolicyScheduler "lof" demo_cache)
    ∧ out ≡ₚ demo_queue.
Proof.
  destruct (lof_order_spec whole_key id (mkPolicyScheduler "lof" demo_cache) demo_queue)
    as (out & Hcall & Hperm & _); [reflexivity|].
  exists out. by split.
Defined.

Lemma demo_tree_distinct : NoDup (node_ids demo_tree).
Proof. apply (bool_decide_unpack _). vm_compute. exact I. Qed.

Lemma dfs_weight_keeps_requests_witness :
  (calc_priority whole_key id
     (PolicyScheduler_init "dfs-weight" demo_cache) demo_queue).1.2
  ≡ₚ filter (λ r, last_node r ∈ node_ids demo_tree) demo_matched.
Proof.
  destruct (dfs_weight_keeps_requests whole_key id
              (PolicyScheduler_init "dfs-weight" demo_cache)
              demo_queue demo_matched demo_cache) as [Hperm _].
  - reflexivity.
  - vm_compute. reflexivity.
  - exact demo_tree_distinct.
  - exact Hperm.
Defined.

Lemma dfs_weights_monotone_witness :
  0 <= wget (dfs_node_to_weight demo_tree demo_matched) 2
  ∧ wget (dfs_node_to_weight demo_tree demo_matched) 2
    <= wget (dfs_node_to_weight demo_tree demo_matched) 0.
Proof.
  apply (dfs_weights_monotone demo_tree demo_matched demo_tree (mkTreeNode 2 [leaf 3])).
  - exact demo_tree_distinct.
  - apply list_elem_of_here.
  - apply list_elem_of_further, list_elem_of_here.
Defined.

(** An adder with budgets of 1000 tokens and the chunk budget given. *)
Lemma add_one_req_admits_iff_witness :
  (add_one_req 4096 whole_key (fresh_req 100 50)
     (PrefillAdder_init (quiet_cache 0) 1000 1000 None 0)).1.1 = true.
Proof.
  pose (req := fresh_req 100 50).
  pose (self := PrefillAdder_init (quiet_cache 0) 1000 1000 None 0).
  apply (add_one_req_admits_iff 4096 whole_key req self
           (_lock_req_enter whole_key req self).1
           (_lock_req_enter whole_key req self).2).
  - vm_compute. reflexivity.
  - split; [vm_compute; reflexivity|]. split.
    + left. vm_compute. discriminate.
    + intros (Hz & _). vm_compute in Hz. discriminate Hz.
Defined.


Lemma add_one_req_rejection_is_clean_witness :
  same_budgets
    (PrefillAdder_init (quiet_cache 0) 100 1000 None 0)
    (add_one_req 4096 whole_key (fresh_req 100 50)
       (PrefillAdder_init (quiet_cache 0) 100 1000 None 0)).2.
Proof.
  apply (add_one_req_rejection_is_clean 4096 whole_key (fresh_req 100 50)
           (PrefillAdder_init (quiet_cache 0) 100 1000 None 0)).
  vm_compute. reflexivity.
Defined.

Lemma new_inflight_req_exhausts_witness :
  no_remaining_tokens
    (add_one_req 4096 whole_key (fresh_req 100 50)
       (PrefillAdder_init (quiet_cache 0) 1000 1000 (Some 60) 0)).2
  = true.
Proof.
  apply (new_inflight_req_exhausts 4096 whole_key (fresh_req 100 50)
           (PrefillAdder_init (quiet_cache 0) 1000 1000 (Some 60) 0)).
  vm_compute. discriminate.
Defined.

Lemma add_inflight_req_truncated_exhausts_witness :
  ∃ req' self',
    add_inflight_req 4096 pending_req
      (PrefillAdder_init (quiet_cache 0) 1000 1000 (Some 60) 0)
    = (Return (Some req'), req', self')
    ∧ no_remaining_tokens self' = true.
Proof.
  destruct (add_inflight_req_truncated_exhausts 4096 pending_req
              (PrefillAdder_init (quiet_cache 0) 1000 1000 (Some 60) 0) 60)
    as (req' & self' & Hadd & _ & _ & Hno); [done|done|].
  exists req', self'. by split.
Defined.

Lemma add_one_req_never_overdraws_witness :
  ∃ calls d_rel,
    tc_calls (tree_cache
      (add_one_req 4096 whole_key (fresh_req 100 50)
         (PrefillAdder_init charging_cache 1000 1000 None 0)).2)
    = calls ++ [CallDecLockRef 1 d_rel]
    ∧ 0 < rem_total_tokens
            (add_one_req 4096 whole_key (fresh_req 100 50)
               (PrefillAdder_init charging_cache 1000 1000 None 0)).2 - d_rel.
Proof.
  pose (req := fresh_req 100 50).
  pose (self := PrefillAdder_init charging_cache 1000 1000 None 0).
  destruct (add_one_req_never_overdraws 4096 whole_key req self
              (_lock_req_enter whole_key req self).1
              (_lock_req_enter whole_key req self).2)
    as (calls & d_rel & Hcalls & Hpos & _).
  - vm_compute. reflexivity.
  - vm_compute. discriminate.
  - vm_compute. reflexivity.
  - exists calls, d_rel. split; [exact Hcalls|exact Hpos].
Defined.

Lemma add_one_req_request_consistent_witness :
  len (fill_ids (add_one_req 4096 whole_key (fresh_req 100 50)
                   (PrefillAdder_init (quiet_cache 2) 1000 1000 (Some 60) 0)).1.2)
  = len (prefix_indices (add_one_req 4096 whole_key (fresh_req 100 50)
                           (PrefillAdder_init (quiet_cache 2) 1000 1000 (Some 60) 0)).1.2)
    + extend_input_len (add_one_req 4096 whole_key (fresh_req 100 50)
                          (PrefillAdder_init (quiet_cache 2) 1000 1000 (Some 60) 0)).1.2.
Proof.
  apply (add_one_req_request_consistent 4096 whole_key (fresh_req 100 50)
           (PrefillAdder_init (quiet_cache 2) 1000 1000 (Some 60) 0)).
  simpl. intros chunk [= <-]. lia.
Defined.

(** Two requests of 100 tokens against a chunk budget of 150: the first
    is admitted whole, the second as a chunk of 50 tokens, and the input
    ledger balances. *)
Example two_requests_ledger :
  let self :=
    run_calls 4096 whole_key
      [AddOneReq (fresh_req 100 50); AddOneReq (fresh_req 100 50)]
      (PrefillAdder_init (quiet_cache 0) 1000 1000 (Some 150) 0) in
  (map extend_input_len (can_run_list self), rem_input_tokens self,
   rem_chunk_tokens self, log_input_tokens self, no_remaining_tokens self)
  = ([100; 50], 850, Some 0, 150, true).
Proof. vm_compute. reflexivity. Qed.
